(** * WikiCrawler: a shallow embedding of martin/src/WikiCrawler.py

    The crawler discovers a path between two pages of a hyperlink graph.
    The embedding follows the Python source function by function:

    - [_prioritize_by_keyword], [_get_article_links], [_flatten] are the
      module-level helpers;
    - [_process_links], [_worker], [_first], [shortest_path] and
      [__call__] are the methods of [WikiCrawler], written over an
      explicit crawler state (queue, graph, event, semaphore, and one
      control point per worker task);
    - asyncio's cooperative scheduling is a step function, [_worker],
      indexed by the task the event loop resumes: a task runs without
      interruption from one suspension point to the next, and which task
      runs next is not determined.

    What is not part of the source file is a parameter of the model: URL
    resolution ([yarl.URL.join]), the order [yarl] puts on URLs, the
    iteration order of a Python [set], the case mapping of [str.lower],
    and the answers of the web. A [yarl.URL] and its [str] are
    identified: a node is a string. A [str] is the sequence of its bytes
    in UTF-8, on which the [in] and [startswith] tests agree with those
    on characters.

    Loops that may run long take a bound: [fuel] for the [while] loop of
    [shortest_path], the schedule for [asyncio.gather]. The recursion of
    [_flatten] is bounded by the interpreter: [flatten_frames] and
    [shortest_path_limited] take the number of frames the call stack has
    room for, and [_flatten] and [shortest_path] give what is returned
    when that room suffices. *)

From stdpp Require Import gmap strings list fin_maps pretty.
From Stdlib Require Import Ascii.

Local Open Scope string_scope.
Local Open Scope list_scope.
Local Open Scope nat_scope.

(** * Part I: the program *)

(** ** Strings: [str.lower] and the [in] operator *)

Module Str.

(** [str.lower] on strings of ASCII characters: ['A'..'Z'] are shifted,
    every other character is kept. What [str.lower] does to other strings
    is left to a parameter of the prioritizer. *)
Definition lower_ascii (c : ascii) : ascii :=
  let n := nat_of_ascii c in
  if ((65 <=? n) && (n <=? 90))%nat then ascii_of_nat (n + 32) else c.

Fixpoint lower (s : string) : string :=
  match s with
  | EmptyString => EmptyString
  | String c s' => String (lower_ascii c) (lower s')
  end.

(** [w in t] for two strings: [w] occurs in [t] as a contiguous block. *)
Fixpoint contains (w t : string) : bool :=
  String.prefix w t ||
  match t with
  | EmptyString => false
  | String _ t' => contains w t'
  end.

(** [t.startswith(w)] *)
Definition startswith (t w : string) : bool := String.prefix w t.

(** [s.isascii()]: every character of [s] is below 128. *)
Fixpoint is_ascii (s : string) : bool :=
  match s with
  | EmptyString => true
  | String c s' => (nat_of_ascii c <? 128)%nat && is_ascii s'
  end.

End Str.

(** ** Pages and links *)

(** A [bs4] anchor tag, as far as the crawler looks at it: its visible
    text ([link.text]) and its [href] attribute ([link['href']]). *)
Record Tag := mkTag { text : string; href : string }.

(** What [session.get(url)] answers: a response whose content type is
    not ['text/html'], or an HTML document, given by the anchors (with an
    [href]) that [BeautifulSoup] finds in it, in document order. *)
Inductive response :=
  | NotHtml
  | Html (anchors : list Tag).

(** [_get_article_links]: the anchors whose [href] starts with [/wiki/]. *)
Definition _get_article_links (source : list Tag) : list Tag :=
  filter (λ link, Str.startswith (href link) "/wiki/" = true) source.

(** ** [_prioritize_by_keyword] *)

(** [enumerate(l)] *)
Definition enumerate {A} (l : list A) : list (nat * A) := imap (λ i x, (i, x)) l.

(** [keywords or []] *)
Definition or_empty {A} (keywords : option (list A)) : list A :=
  match keywords with
  | Some l => l
  | None => []
  end.

Section Prioritizer.

(** [s.lower()] of Python's [str]: it follows the Unicode case mapping,
    which is the interpreter's and not part of the source file. *)
Variable lower : string → string.

(** The inner [for index, word in enumerate(...)] loop: [Some index] when
    the loop leaves through [break], [None] when it runs into [else]. *)
Fixpoint scan_keywords (words : list (nat * string)) (text href : string) : option nat :=
  match words with
  | [] => None
  | (index, word) :: words' =>
      if Str.contains word text || Str.contains word (lower href)
      then Some index
      else scan_keywords words' text href
  end.

(** One turn of the outer [for link in links] loop: the pair it yields. *)
Definition prioritize_link (keywords : list string) (link : Tag) : nat * string :=
  let text := lower (text link) in
  let href := href link in
  match scan_keywords (enumerate (lower <$> keywords)) text href with
  | Some index => (index, href)
  | None => (length keywords, href)
  end.

(** The generator, as the list of the pairs it yields. *)
Definition _prioritize_by_keyword (links : list Tag) (keywords : option (list string))
  : list (nat * string) :=
  let keywords := or_empty keywords in
  prioritize_link keywords <$> links.

End Prioritizer.

(** ** Results of code that can raise or run long *)

(** The outcome of running a piece of the program with a bound on the
    number of loop turns: it completes with a value, it raises (the
    modelled code can raise [KeyError], on [dist[at]], and
    [RecursionError], in [_flatten]), or the bound is reached first. *)
Inductive result (A : Type) : Type :=
  | Ok (a : A)
  | Raise
  | OutOfFuel.
Arguments Ok {A} a.
Arguments Raise {A}.
Arguments OutOfFuel {A}.

#[global] Instance result_bind : MBind result := λ A B k r,
  match r with
  | Ok a => k a
  | Raise => Raise
  | OutOfFuel => OutOfFuel
  end.

(** ** The graph: [defaultdict(set)] *)

Module Graph.

(** [self._graph]: page URL (as [str]) to the set of the URLs it links to. *)
Abbreviation t := (gmap string (gset string)).

(** [g[k]] on a [defaultdict(set)]: a missing key is inserted with an
    empty set, and that set is returned. *)
Definition getitem (g : t) (k : string) : gset string * t :=
  match g !! k with
  | Some s => (s, g)
  | None => (∅, <[k := ∅]> g)
  end.

(** [g[k].add(v)] *)
Definition add (g : t) (k v : string) : t :=
  let '(s, g) := getitem g k in
  <[k := s ∪ {[v]}]> g.

(** [k in g] *)
Definition contains (g : t) (k : string) : bool := bool_decide (is_Some (g !! k)).

End Graph.

(** ** [_flatten] *)

(** The Python values [shortest_path] stores in [dist]: a [str], or a
    list of such values. *)
#[local] Unset Elimination Schemes.
Inductive pyval :=
  | PStr (s : string)
  | PList (items : list pyval).
#[local] Set Elimination Schemes.

(** One turn of the loop of [_flatten]: a list is flattened recursively
    ([yield from _flatten(item)]), a string is yielded as it is. *)
Fixpoint flatten_item (item : pyval) : list string :=
  match item with
  | PList items => flat_map flatten_item items
  | PStr s => [s]
  end.

(** [_flatten(iterable)], where [iterable] is a list or [None]: the
    strings it yields, in order, when the recursion fits the interpreter's
    stack ([flatten_frames] below is the run on a stack of a given
    size). *)
Definition _flatten (iterable : option (list pyval)) : list string :=
  flat_map flatten_item (or_empty iterable).

(** [_flatten] on the interpreter's stack. [_flatten] is a recursive
    generator: while the items of a list nested [n] levels deep are
    produced, [n] frames of [_flatten] are on the call stack, one per
    level ([yield from _flatten(item)]), and the interpreter raises
    [RecursionError] when a frame is entered that the recursion limit
    leaves no room for. [flatten_frames frames iterable] is what
    [list(_flatten(iterable))] gives when the stack has room for [frames]
    more frames. *)
Fixpoint flatten_frames (frames : nat) (iterable : list pyval) : result (list string) :=
  match frames with
  | 0 => Raise
  | S frames' =>
      (fix loop (items : list pyval) : result (list string) :=
         match items with
         | [] => Ok []
         | PList sublist :: items =>
             yielded ← flatten_frames frames' sublist;
             rest ← loop items;
             Ok (yielded ++ rest)
         | PStr s :: items =>
             rest ← loop items;
             Ok (s :: rest)
         end) iterable
  end.

(** [list(_flatten(iterable))], where [iterable] is a list or [None],
    with room for [frames] frames. *)
Definition _flatten_limited (frames : nat) (iterable : option (list pyval))
  : result (list string) :=
  flatten_frames frames (or_empty iterable).

(** ** The crawler state *)

(** An entry of [self._queue]: [(priority, url)]. *)
Abbreviation entry := (nat * string)%type.

(** Where a worker task stands: each constructor is a point at which the
    coroutine [_worker] can be suspended, or its end. *)
Inductive task :=
  | AtLoop                        (* about to test the [while] condition *)
  | InGet                         (* inside [await self._queue.get()], queue empty *)
  | InAcquire (current : string)  (* waiting for [self._semaphore] *)
  | InFetch (current : string)    (* waiting for [self._session.get(current)] *)
  | Exited.                       (* the coroutine has returned *)

(** The mutable fields of a [WikiCrawler] and the tasks [_first] spawned.
    [_target_found] is the [asyncio.Event], [_semaphore] the number of
    free permits. *)
Record crawler := mkCrawler {
  _queue : list entry;
  _graph : Graph.t;
  _target_found : bool;
  _semaphore : nat;
  workers : list task;
}.

Definition set_queue (q : list entry) (st : crawler) : crawler :=
  mkCrawler q (_graph st) (_target_found st) (_semaphore st) (workers st).
Definition set_graph (g : Graph.t) (st : crawler) : crawler :=
  mkCrawler (_queue st) g (_target_found st) (_semaphore st) (workers st).
Definition set_target_found (st : crawler) : crawler :=
  mkCrawler (_queue st) (_graph st) true (_semaphore st) (workers st).
Definition set_semaphore (n : nat) (st : crawler) : crawler :=
  mkCrawler (_queue st) (_graph st) (_target_found st) n (workers st).
Definition set_task (i : nat) (t : task) (st : crawler) : crawler :=
  mkCrawler (_queue st) (_graph st) (_target_found st) (_semaphore st)
    (<[i := t]> (workers st)).
Definition set_workers (ts : list task) (st : crawler) : crawler :=
  mkCrawler (_queue st) (_graph st) (_target_found st) (_semaphore st) ts.

Definition is_exited (t : task) : bool :=
  match t with
  | Exited => true
  | _ => false
  end.

(** ** The class [WikiCrawler] *)

Section WikiCrawler.

(** [s.lower()] of [str], which the prioritizer applies to keywords, link
    texts and hrefs. *)
Variable lower : string → string.

(** [current.join(url)] of [yarl]: the reference [url] resolved against
    the page [current]. *)
Variable join : string → string → string.

(** The order of [yarl] URLs, which [asyncio.PriorityQueue] falls back on
    when two entries have the same priority (tuples compare
    lexicographically). *)
Variable url_leb : string → string → bool.

(** The order in which [for x in s] visits a Python set: not specified by
    the language, so any enumeration of the elements. *)
Variable set_iter : gset string → list string.

(** The web: what a GET of a URL answers. *)
Variable fetch : string → response.

(** The arguments of [__init__]: [self._start], [self._target],
    [self._concurrent] and [self._keywords] (already a list: [__init__]
    replaces [None] by the empty list). *)
Variables (start target : string) (concurrent : nat) (keywords : list string).

(** *** The priority queue *)

(** [a <= b] on [(priority, url)] tuples. *)
Definition entry_leb (a b : entry) : bool :=
  (a.1 <? b.1)%nat || ((a.1 =? b.1)%nat && url_leb a.2 b.2).

(** [put]: the queue is unbounded, so [await self._queue.put(e)] never
    suspends. The heap is kept as the list of its entries. *)
Definition pq_put (q : list entry) (e : entry) : list entry := q ++ [e].

(** [get] on a non-empty queue: a least entry and the remaining ones;
    [None] on an empty queue, where [get] suspends the caller. *)
Fixpoint pq_get (q : list entry) : option (entry * list entry) :=
  match q with
  | [] => None
  | e :: q' =>
      match pq_get q' with
      | None => Some (e, [])
      | Some (m, r) => if entry_leb e m then Some (e, q') else Some (m, e :: r)
      end
  end.

(** *** [shortest_path] *)

Abbreviation dist_t := (gmap string (list pyval)).

(** The [for next_ in self._graph[at]] loop, over the elements still to
    visit. [dist[at]] raises when [at] is not a key of [dist]. *)
Fixpoint visit (nexts : list string) (at_ : string) (dist : dist_t) (q : list string)
  : result (dist_t * list string) :=
  match nexts with
  | [] => Ok (dist, q)
  | next_ :: nexts =>
      if decide (is_Some (dist !! next_)) then visit nexts at_ dist q
      else
        match dist !! at_ with
        | None => Raise
        | Some path_at =>
            visit nexts at_ (<[next_ := [PList path_at; PStr next_]]> dist) (q ++ [next_])
        end
  end.

(** The [while len(q)] loop; [fuel] bounds the number of turns. The graph
    is threaded through because [self._graph[at]] can insert a key. *)
Fixpoint bfs_loop (fuel : nat) (g : Graph.t) (dist : dist_t) (q : list string)
  : result (Graph.t * dist_t) :=
  match q with
  | [] => Ok (g, dist)
  | at_ :: q =>
      match fuel with
      | 0 => OutOfFuel
      | S fuel =>
          let '(nexts, g) := Graph.getitem g at_ in
          '(dist, q) ← visit (set_iter nexts) at_ dist q;
          bfs_loop fuel g dist q
      end
  end.

(** [shortest_path]: the list it returns when the stack has room for
    flattening it, and the graph it leaves. *)
Definition shortest_path (fuel : nat) (g : Graph.t) : result (list string * Graph.t) :=
  let dist : dist_t := {[start := [PStr start]]} in
  let q := [start] in
  '(g, dist) ← bfs_loop fuel g dist q;
  Ok (_flatten (dist !! target), g).

(** [shortest_path] on the interpreter's stack, with room for [frames]
    frames when [_flatten] is called: the traversal is a loop and enters
    no frame of its own; [list(_flatten(dist.get(target)))] can raise. *)
Definition shortest_path_limited (frames fuel : nat) (g : Graph.t)
  : result (list string * Graph.t) :=
  let dist : dist_t := {[start := [PStr start]]} in
  let q := [start] in
  '(g, dist) ← bfs_loop fuel g dist q;
  path ← _flatten_limited frames (dist !! target);
  Ok (path, g).

(** *** [_process_links] *)

(** The body of the [for priority, url in ...] loop, over the pairs the
    prioritizer still has to yield. Nothing in it suspends. *)
Fixpoint process_loop (pairs : list entry) (current : string) (st : crawler) : crawler :=
  match pairs with
  | [] => st
  | (priority, url) :: pairs =>
      let url := join current url in
      let st := set_graph (Graph.add (_graph st) current url) st in
      if decide (url = target) then set_target_found st
      else process_loop pairs current (set_queue (pq_put (_queue st) (priority, url)) st)
  end.

Definition _process_links (links : list Tag) (current : string) (st : crawler) : crawler :=
  process_loop (_prioritize_by_keyword lower links (Some keywords)) current st.

(** *** [_worker] *)

(** From the moment [get] has delivered the entry [e] (the queue is then
    [q]) to the next suspension: the membership test, and the entry into
    [async with self._semaphore]. [task_done] only counts for
    [queue.join], which the crawler never calls. *)
Definition take (i : nat) (e : entry) (q : list entry) (st : crawler) : crawler :=
  let current := e.2 in
  let st := set_queue q st in
  if Graph.contains (_graph st) current then set_task i AtLoop st
  else
    match _semaphore st with
    | 0 => set_task i (InAcquire current) st
    | S n => set_task i (InFetch current) (set_semaphore n st)
    end.

(** One resumption of worker task [i]: it runs from where it stands to its
    next suspension. [None] when the task cannot run: it has exited, or
    what it waits for is not there. *)
Definition _worker (i : nat) (st : crawler) : option crawler :=
  match workers st !! i with
  | Some AtLoop =>
      if _target_found st then Some (set_task i Exited st)
      else
        match pq_get (_queue st) with
        | Some (e, q) => Some (take i e q st)
        | None => Some (set_task i InGet st)
        end
  | Some InGet =>
      match pq_get (_queue st) with
      | Some (e, q) => Some (take i e q st)
      | None => None
      end
  | Some (InAcquire current) =>
      match _semaphore st with
      | 0 => None
      | S n => Some (set_task i (InFetch current) (set_semaphore n st))
      end
  | Some (InFetch current) =>
      let st := set_semaphore (S (_semaphore st)) st in
      match fetch current with
      | Html source =>
          let links := _get_article_links source in
          Some (set_task i AtLoop (_process_links links current st))
      | NotHtml => Some (set_task i AtLoop st)
      end
  | Some Exited | None => None
  end.

(** *** [_first] and [__call__] *)

(** The crawler as [__init__] leaves it. *)
Definition init : crawler := mkCrawler [] ∅ false concurrent [].

(** [asyncio.gather] over the worker tasks, under the schedule [sched]:
    the list of the tasks the event loop resumes, in order. It returns
    once every task has exited; resuming a task that cannot run changes
    nothing. *)
Fixpoint gather (sched : list nat) (st : crawler) : result crawler :=
  if forallb is_exited (workers st) then Ok st
  else
    match sched with
    | [] => OutOfFuel
    | i :: sched => gather sched (default st (_worker i st))
    end.

(** The crawler when the workers are created: the start page has been
    expanded; [None] when the initial fetch failed. *)
Definition seeded : option crawler :=
  match fetch start with
  | NotHtml => None
  | Html source =>
      let links := _get_article_links source in
      let st := _process_links links start init in
      Some (set_workers (replicate concurrent AtLoop) st)
  end.

Definition _first (sched : list nat) : result crawler :=
  match seeded with
  | None => Ok init
  | Some st => gather sched st
  end.

(** [__call__]: the crawl, then the path. *)
Definition __call__ (sched : list nat) (fuel : nat) : result (list string) :=
  st ← _first sched;
  '(path, _) ← shortest_path fuel (_graph st);
  Ok path.

End WikiCrawler.

(** * Part II: vocabulary of the specification *)

(** ** Graphs and paths *)

(** The out-edges recorded for [k]: empty when [k] has no entry. *)
Definition neighbors (g : Graph.t) (k : string) : gset string := default ∅ (g !! k).

(** Every node some recorded edge points to. *)
Definition targets (g : Graph.t) : gset string := ⋃ (map_to_list g).*2.

(** [walk nb s p t]: the list [p] is a path from [s] to [t] along the
    edges [nb]; it starts with [s], ends with [t], and each node is
    followed by one of its neighbours. A path with [n] edges has
    [n + 1] elements. *)
Inductive walk (nb : string → gset string) (s : string) : list string → string → Prop :=
  | walk_start : walk nb s [s] s
  | walk_step p u v : walk nb s p u → v ∈ nb u → walk nb s (p ++ [v]) v.

(** The nesting depth of a value: the number of frames of [_flatten] on
    the stack while its innermost items are produced. *)
Fixpoint depth_item (item : pyval) : nat :=
  match item with
  | PStr _ => 0
  | PList items => S (foldr (λ item n, depth_item item `max` n) 0 items)
  end.

Definition depth (iterable : list pyval) : nat := depth_item (PList iterable).

(** Every value of [dist] is a path nested once per node: flattening it
    takes as many frames as the path has nodes. *)
Definition nested (dist : gmap string (list pyval)) : Prop :=
  ∀ v l, dist !! v = Some l → depth l = length (flat_map flatten_item l).

(** The path [shortest_path] has recorded for [v]: [_flatten(dist.get(v))]. *)
Definition route (dist : gmap string (list pyval)) (v : string) : list string :=
  _flatten (dist !! v).

(** Its number of nodes. *)
Definition lvl (dist : gmap string (list pyval)) (v : string) : nat :=
  length (route dist v).

(** The queue lists nodes by increasing length of their recorded path. *)
Definition sorted_by (dist : gmap string (list pyval)) (q : list string) : Prop :=
  ∀ i j x y, i ≤ j → q !! i = Some x → q !! j = Some y → lvl dist x ≤ lvl dist y.

(** ** Occurrences of keywords *)

(** [kw] occurs, ignoring case, in the visible text of [link] or in its
    href: the lowercase form of the keyword is a contiguous block of the
    lowercase form of the text, or of the href. *)
Definition occurs_in_link (lower : string → string) (kw : string) (link : Tag) : Prop :=
  (∃ a b, lower (text link) = a +:+ lower kw +:+ b) ∨
  (∃ a b, lower (href link) = a +:+ lower kw +:+ b).

(** [p] is the index of the first keyword occurring in [link], or the
    length of the keyword list when no keyword occurs. *)
Definition first_match_index (lower : string → string) (keywords : list string)
    (link : Tag) (p : nat) : Prop :=
  (∀ j kw, j < p → keywords !! j = Some kw → ¬ occurs_in_link lower kw link) ∧
  match keywords !! p with
  | Some kw => occurs_in_link lower kw link
  | None => p = length keywords
  end.

(** On strings of ASCII characters the interpreter's [str.lower] is
    [Str.lower]. *)
Definition lower_on_ascii (lower : string → string) : Prop :=
  ∀ s, Str.is_ascii s = true → lower s = Str.lower s.

(** ** The crawl *)

(** The pairs the prioritizer yields, with each href resolved against the
    page. *)
Definition resolve (join : string → string → string) (current : string)
    (pairs : list entry) : list entry :=
  (λ e, (e.1, join current e.2)) <$> pairs.

(** [g[current].add(v)] for each [v] of a list, in order. *)
Definition add_edges (g : Graph.t) (current : string) (vs : list string) : Graph.t :=
  foldl (λ g v, Graph.add g current v) g vs.

(** One task of the pool is resumed. *)
Definition step (lower : string → string) (join : string → string → string)
    (url_leb : string → string → bool)
    (fetch : string → response) (target : string) (keywords : list string)
    (st st' : crawler) : Prop :=
  ∃ i, _worker lower join url_leb fetch target keywords i st = Some st'.

(** Resuming task 0, the only task of a pool of one worker; a task that
    cannot run leaves the crawler as it is. *)
Definition resume0 (lower : string → string) (join : string → string → string)
    (url_leb : string → string → bool)
    (fetch : string → response) (target : string) (keywords : list string)
    (st : crawler) : crawler :=
  default st (_worker lower join url_leb fetch target keywords 0 st).

(** The pool has nothing to do and nothing to wait for: the queue is
    empty, the event is not set, and every task is at the loop test or
    inside [get]. *)
Definition idle (st : crawler) : Prop :=
  _queue st = [] ∧ _target_found st = false ∧ workers st ≠ []
  ∧ Forall (λ t, t = AtLoop ∨ t = InGet) (workers st).

(** ** Fixtures *)

(** The graph of the end-to-end scenario when the start page has been
    expanded, and when the page of A has been expanded too. *)
Definition seeded_graph (start A B : string) : Graph.t :=
  Graph.add (Graph.add ∅ start A) start B.
Definition final_graph (start target A B : string) : Graph.t :=
  Graph.add (seeded_graph start A B) A target.

(** A web where the start page links twice to a page that has no article
    links. *)
Definition two_links_web (url : string) : response :=
  if String.eqb url "/wiki/S"
  then Html [mkTag "first" "/wiki/B"; mkTag "second" "/wiki/B"]
  else Html [].

(** Three pages: S links to A and B, A links to T, B has no article
    link (its only anchor leaves the site). *)
Definition small_web (url : string) : response :=
  if String.eqb url "/wiki/S"
  then Html [mkTag "Page A" "/wiki/A"; mkTag "Page B" "/wiki/B"]
  else if String.eqb url "/wiki/A" then Html [mkTag "Target" "/wiki/T"]
  else if String.eqb url "/wiki/B" then Html [mkTag "elsewhere" "http://example.org/"]
  else NotHtml.

(** A site that is one chain: page [k] holds one article link, to page
    [k + 1]. [chain n] is the graph of its first [n] edges. *)
Definition page (k : nat) : string := "/wiki/" +:+ pretty k.

Fixpoint chain (n : nat) : Graph.t :=
  match n with
  | 0 => ∅
  | S n => Graph.add (chain n) (page n) (page (S n))
  end.

(** A web where the page of A links to C, then to the target T, then to
    E; the start page S links to A only, and the page of C links to D. *)
Definition late_web (url : string) : response :=
  if String.eqb url "/wiki/S" then Html [mkTag "Page A" "/wiki/A"]
  else if String.eqb url "/wiki/A"
  then Html [mkTag "Page C" "/wiki/C"; mkTag "Target" "/wiki/T"; mkTag "Page E" "/wiki/E"]
  else if String.eqb url "/wiki/C" then Html [mkTag "Page D" "/wiki/D"]
  else NotHtml.

(** ** Further vocabulary *)

(** [u] links to [v] on the web: the page of [u] is HTML and holds an
    article link, an anchor whose href starts with [/wiki/], that
    resolves to [v] against [u]. *)
Definition links_to (join : string → string → string) (fetch : string → response)
    (u v : string) : Prop :=
  ∃ source link,
    fetch u = Html source ∧ link ∈ source
    ∧ Str.startswith (href link) "/wiki/" = true
    ∧ v = join u (href link).

(** Each element of [p] is related to the next one. *)
Definition chained (R : string → string → Prop) (p : list string) : Prop :=
  ∀ i u v, p !! i = Some u → p !! S i = Some v → R u v.

(** [k] can be reached from [start] along the recorded edges. *)
Definition reach (g : Graph.t) (start k : string) : Prop :=
  ∃ p, walk (neighbors g) start p k.

(** The task is inside [async with self._semaphore]. *)
Definition is_fetching (t : task) : bool :=
  match t with
  | InFetch _ => true
  | _ => false
  end.

(** The number of tasks that hold a permit of the semaphore. *)
Definition fetching (ts : list task) : nat := length (filter (λ t, is_fetching t = true) ts).

(** The node a task is about to fetch, if any. *)
Definition pending (t : task) : option string :=
  match t with
  | InAcquire current | InFetch current => Some current
  | _ => None
  end.

(** A task is suspended in [get] on an empty queue and no task is in a
    position to put an entry: all are at the loop test, in [get], or
    have returned. *)
Definition stranded (st : crawler) : Prop :=
  _queue st = [] ∧ InGet ∈ workers st
  ∧ Forall (λ t, t = AtLoop ∨ t = InGet ∨ t = Exited) (workers st).

(** The pairs before the first one whose node is the target, and whether
    there is such a one. *)
Fixpoint until_target (target : string) (pairs : list entry) : list entry * bool :=
  match pairs with
  | [] => ([], false)
  | e :: pairs =>
      if decide (e.2 = target) then ([], true)
      else let '(pre, hit) := until_target target pairs in (e :: pre, hit)
  end.

(** The crawler of the witnesses: two workers on [small_web], when task 0
    has taken A from the queue and fetches it. *)
Definition small_crawl_seeded : crawler :=
  mkCrawler [(0, "/wiki/A"); (0, "/wiki/B")]
    {["/wiki/S" := {["/wiki/A"; "/wiki/B"]}]} false 2 [AtLoop; AtLoop].
Definition small_crawl_fetching : crawler :=
  mkCrawler [(0, "/wiki/B")]
    {["/wiki/S" := {["/wiki/A"; "/wiki/B"]}]} false 1 [InFetch "/wiki/A"; AtLoop].

(** What resuming task [i] does, case by case. *)
Inductive resumes (lower : string → string) (join : string → string → string)
    (fetch : string → response)
    (target : string) (keywords : list string) (i : nat) (st : crawler)
  : crawler → Prop :=
  | resumes_exit :
      workers st !! i = Some AtLoop → _target_found st = true →
      resumes lower join fetch target keywords i st (set_task i Exited st)
  | resumes_wait :
      workers st !! i = Some AtLoop → _target_found st = false → _queue st = [] →
      resumes lower join fetch target keywords i st (set_task i InGet st)
  | resumes_skip e q :
      (workers st !! i = Some AtLoop ∧ _target_found st = false)
      ∨ workers st !! i = Some InGet →
      _queue st ≡ₚ e :: q → Forall (λ x, e.1 ≤ x.1) q →
      is_Some (_graph st !! e.2) →
      resumes lower join fetch target keywords i st (set_task i AtLoop (set_queue q st))
  | resumes_fetch e q n :
      (workers st !! i = Some AtLoop ∧ _target_found st = false)
      ∨ workers st !! i = Some InGet →
      _queue st ≡ₚ e :: q → Forall (λ x, e.1 ≤ x.1) q →
      _graph st !! e.2 = None → _semaphore st = S n →
      resumes lower join fetch target keywords i st
        (set_task i (InFetch e.2) (set_semaphore n (set_queue q st)))
  | resumes_block e q :
      (workers st !! i = Some AtLoop ∧ _target_found st = false)
      ∨ workers st !! i = Some InGet →
      _queue st ≡ₚ e :: q → Forall (λ x, e.1 ≤ x.1) q →
      _graph st !! e.2 = None → _semaphore st = 0 →
      resumes lower join fetch target keywords i st
        (set_task i (InAcquire e.2) (set_queue q st))
  | resumes_acquire current n :
      workers st !! i = Some (InAcquire current) → _semaphore st = S n →
      resumes lower join fetch target keywords i st
        (set_task i (InFetch current) (set_semaphore n st))
  | resumes_not_html current :
      workers st !! i = Some (InFetch current) → fetch current = NotHtml →
      resumes lower join fetch target keywords i st
        (set_task i AtLoop (set_semaphore (S (_semaphore st)) st))
  | resumes_html current source :
      workers st !! i = Some (InFetch current) → fetch current = Html source →
      resumes lower join fetch target keywords i st
        (set_task i AtLoop
           (_process_links lower join target keywords (_get_article_links source) current
              (set_semaphore (S (_semaphore st)) st))).

(** * Part III: proofs *)

(** ** Strings *)

Lemma append_cons c a b : String c a +:+ b = String c (a +:+ b).
Proof. reflexivity. Qed.

Lemma append_nil b : "" +:+ b = b.
Proof. reflexivity. Qed.

Lemma prefix_split w t : String.prefix w t = true ↔ ∃ b, t = w +:+ b.
Proof.
  revert t. induction w as [|c w IH]; intros t; simpl.
  - destruct t as [|d t]; (split; [intros _; by eexists | done]).
  - destruct t as [|d t]; simpl.
    + split; [done | intros [b Hb]; discriminate].
    + destruct (ascii_dec c d) as [->|Hne].
      * rewrite IH. split; intros [b Hb]; exists b; rewrite append_cons in *; congruence.
      * split; [done | intros [b Hb]; rewrite append_cons in *; congruence].
Qed.

(** [Str.contains] is the substring relation. *)
Lemma contains_spec w t :
  Str.contains w t = true ↔ ∃ a b, t = a +:+ w +:+ b.
Proof.
  induction t as [|d t IH].
  - change (Str.contains w "") with (String.prefix w "" || false).
    rewrite orb_false_r, prefix_split. split.
    + intros [b Hb]. by exists "", b.
    + intros ([|? a] & b & Hab); [by exists b | discriminate].
  - change (Str.contains w (String d t))
      with (String.prefix w (String d t) || Str.contains w t).
    rewrite orb_true_iff, prefix_split, IH. split.
    + intros [[b Hb] | (a & b & Hab)].
      * by exists "", b.
      * exists (String d a), b. rewrite append_cons. by rewrite Hab.
    + intros ([|c a] & b & Hab); rewrite ?append_cons, ?append_nil in Hab.
      * left. by exists b.
      * right. exists a, b. congruence.
Qed.

(** ** The prioritizer *)

Section PrioritizerSpec.

Variable lower : string → string.

Lemma scan_test_spec kw link :
  Str.contains (lower kw) (lower (text link))
  || Str.contains (lower kw) (lower (href link)) = true
  ↔ occurs_in_link lower kw link.
Proof.
  unfold occurs_in_link. by rewrite orb_true_iff, !contains_spec.
Qed.

Lemma scan_keywords_shift k (kws : list string) link :
  match scan_keywords lower (imap (λ i x, (k + i, x)) (lower <$> kws))
          (lower (text link)) (href link) with
  | Some p =>
      ∃ j kw, p = k + j ∧ kws !! j = Some kw ∧ occurs_in_link lower kw link ∧
        ∀ j' kw', j' < j → kws !! j' = Some kw' → ¬ occurs_in_link lower kw' link
  | None => ∀ kw, kw ∈ kws → ¬ occurs_in_link lower kw link
  end.
Proof.
  revert k. induction kws as [|kw kws IH]; intros k; simpl.
  - intros kw Hin. by apply elem_of_nil in Hin.
  - destruct (Str.contains _ _ || Str.contains _ _) eqn:Htest.
    + exists 0, kw. split_and!; [lia | done | by apply scan_test_spec | intros; lia].
    + assert (¬ occurs_in_link lower kw link) as Hno.
      { rewrite <- scan_test_spec. by rewrite Htest. }
      specialize (IH (S k)).
      rewrite (imap_ext _ (λ i x, (S k + i, x))) by (intros; simpl; f_equal; lia).
      destruct (scan_keywords _ _ _ _) as [p|].
      * destruct IH as (j & kw' & -> & Hj & Hocc & Hbefore).
        exists (S j), kw'. split_and!; [lia | done | done |].
        intros [|j'] kw'' Hlt Hlook; simpl in Hlook; [congruence |].
        apply (Hbefore j'); [lia | done].
      * intros kw' [->|Hin]%elem_of_cons; auto.
Qed.

Lemma prioritize_link_spec keywords link :
  (prioritize_link lower keywords link).2 = href link ∧
  first_match_index lower keywords link (prioritize_link lower keywords link).1.
Proof.
  unfold prioritize_link, enumerate.
  pose proof (scan_keywords_shift 0 keywords link) as H. simpl in H.
  destruct (scan_keywords _ _ _ _) as [p|]; simpl; (split; [done |]).
  - destruct H as (j & kw & -> & Hj & Hocc & Hbefore). split; [done |].
    by rewrite Hj.
  - split.
    + intros j kw _ Hj. apply H. by eapply list_elem_of_lookup_2.
    + by rewrite lookup_ge_None_2.
Qed.

Lemma prioritize_pairs (links : list Tag) (keywords : list string) :
  let out := _prioritize_by_keyword lower links (Some keywords) in
  out.*2 = href <$> links
  ∧ (∀ i link, links !! i = Some link →
       ∃ p, out !! i = Some (p, href link) ∧ first_match_index lower keywords link p).
Proof.
  cbv zeta. unfold _prioritize_by_keyword. simpl. split.
  - rewrite <- list_fmap_compose. apply list_fmap_ext.
    intros i link _. apply prioritize_link_spec.
  - intros i link Hi. exists (prioritize_link lower keywords link).1.
    rewrite list_lookup_fmap, Hi. simpl.
    destruct (prioritize_link_spec keywords link) as [Hhref Hidx].
    split; [| done]. f_equal. rewrite <- Hhref. by destruct (prioritize_link _ _ _).
Qed.

End PrioritizerSpec.

(** C9. [_prioritize_by_keyword] yields one (priority, href) pair per
    link, in the order of the links; each priority is the index of the
    first keyword that occurs, ignoring case, in the link's text or href,
    and the number of keywords when none occurs; without keywords every
    priority is 0; and on the example of the specification the priorities
    are 2, 0, 2. Case is ignored the way the code does it, through
    [str.lower], whatever that function does to a string; the example is
    made of ASCII strings, where [str.lower] shifts the capital letters. *)
Theorem prioritize_by_keyword_spec (lower : string → string) :
  (∀ (links : list Tag) (keywords : list string),
     let out := _prioritize_by_keyword lower links (Some keywords) in
     out.*2 = href <$> links
     ∧ (∀ i link, links !! i = Some link →
          ∃ p, out !! i = Some (p, href link) ∧ first_match_index lower keywords link p)
     ∧ Forall (λ e, e.1 = 0) (_prioritize_by_keyword lower links (Some []))
     ∧ Forall (λ e, e.1 = 0) (_prioritize_by_keyword lower links None))
  ∧ (lower_on_ascii lower →
     (_prioritize_by_keyword lower
        [mkTag "Chemistry" "/wiki/Chem"; mkTag "Physics today" "/wiki/Phys";
         mkTag "Unrelated" "/wiki/X"]
        (Some ["physics"; "math"])).*1 = [2; 0; 2]).
Proof.
  split.
  - intros links keywords. cbv zeta.
    destruct (prioritize_pairs lower links keywords) as [Hhref Hidx].
    split_and!; [done | done | |];
      unfold _prioritize_by_keyword; simpl; apply Forall_fmap, Forall_true; done.
  - intros Hlower. unfold _prioritize_by_keyword, prioritize_link, enumerate. simpl.
    rewrite !Hlower by reflexivity. reflexivity.
Qed.

Lemma prioritize_by_keyword_spec_witness :
  (_prioritize_by_keyword Str.lower
     [mkTag "Chemistry" "/wiki/Chem"; mkTag "Physics today" "/wiki/Phys";
      mkTag "Unrelated" "/wiki/X"]
     (Some ["physics"; "math"])).*1 = [2; 0; 2].
Proof.
  apply (proj2 (prioritize_by_keyword_spec Str.lower)).
  intros s _. reflexivity.
Defined.

(** ** The graph *)

Lemma neighbors_getitem g k :
  (Graph.getitem g k).1 = neighbors g k ∧
  ∀ u, neighbors (Graph.getitem g k).2 u = neighbors g u.
Proof.
  unfold Graph.getitem, neighbors. destruct (g !! k) as [s|] eqn:Hk; simpl.
  - done.
  - split; [done |]. intros u. destruct (decide (u = k)) as [->|Hne].
    + by rewrite lookup_insert_eq, Hk.
    + by rewrite lookup_insert_ne.
Qed.

Lemma lookup_getitem g k u :
  (Graph.getitem g k).2 !! u =
  if decide (u = k) then Some (neighbors g k) else g !! u.
Proof.
  unfold Graph.getitem, neighbors. destruct (g !! k) as [s|] eqn:Hk; simpl.
  - case_decide; by subst.
  - case_decide; subst; by rewrite ?lookup_insert_eq, ?lookup_insert_ne.
Qed.

Lemma lookup_add g k v u :
  Graph.add g k v !! u =
  if decide (u = k) then Some (neighbors g k ∪ {[v]}) else g !! u.
Proof.
  unfold Graph.add.
  pose proof (neighbors_getitem g k) as [H1 _].
  pose proof (lookup_getitem g k u) as H2.
  destruct (Graph.getitem g k) as [s g']. simpl in *. subst s.
  case_decide; subst.
  - by rewrite lookup_insert_eq.
  - by rewrite lookup_insert_ne.
Qed.

Lemma neighbors_add g k v u :
  neighbors (Graph.add g k v) u =
  if decide (u = k) then neighbors g k ∪ {[v]} else neighbors g u.
Proof. unfold neighbors at 1. rewrite lookup_add. by case_decide. Qed.

Lemma contains_true g k : Graph.contains g k = true ↔ is_Some (g !! k).
Proof. unfold Graph.contains. by rewrite bool_decide_eq_true. Qed.

Lemma neighbors_targets g u : neighbors g u ⊆ targets g.
Proof.
  unfold neighbors, targets. destruct (g !! u) as [s|] eqn:Hu; simpl; [| set_solver].
  intros x Hx. apply elem_of_union_list. exists s. split; [| done].
  apply list_elem_of_fmap. exists (u, s). split; [done |].
  by apply elem_of_map_to_list.
Qed.

(** ** Paths *)

Lemma walk_ends nb s p t : walk nb s p t → head p = Some s ∧ last p = Some t.
Proof.
  induction 1 as [|p u v Hwalk [Hhead _] Hedge]; [done |].
  split; [| by rewrite last_snoc].
  destruct p; [done | by simpl in *].
Qed.

(** ** The breadth-first traversal of [shortest_path] *)

Lemma route_insert_ne (dist : gmap string (list pyval)) w l v :
  v ≠ w → route (<[w := l]> dist) v = route dist v.
Proof. intros Hne. unfold route. by rewrite lookup_insert_ne. Qed.

Lemma route_child (dist : gmap string (list pyval)) u path_at w :
  dist !! u = Some path_at →
  route (<[w := [PList path_at; PStr w]]> dist) w = route dist u ++ [w].
Proof. intros Hu. unfold route. rewrite lookup_insert_eq, Hu. done. Qed.

Lemma lvl_insert_ne (dist : gmap string (list pyval)) w l v :
  v ≠ w → lvl (<[w := l]> dist) v = lvl dist v.
Proof. intros Hne. unfold lvl. by rewrite route_insert_ne. Qed.

Lemma lvl_child (dist : gmap string (list pyval)) u path_at w :
  dist !! u = Some path_at →
  lvl (<[w := [PList path_at; PStr w]]> dist) w = S (lvl dist u).
Proof.
  intros Hu. unfold lvl. rewrite (route_child _ u) by done.
  rewrite length_app. simpl. lia.
Qed.

Lemma fresh_ne (dist : gmap string (list pyval)) w x :
  dist !! w = None → is_Some (dist !! x) → x ≠ w.
Proof. intros Hw [l Hx] ->. congruence. Qed.

Lemma is_Some_insert_fresh (dist : gmap string (list pyval)) w l x :
  is_Some (<[w := l]> dist !! x) ↔ x = w ∨ is_Some (dist !! x).
Proof.
  destruct (decide (x = w)) as [->|Hne].
  - rewrite lookup_insert_eq. split; eauto.
  - rewrite lookup_insert_ne by done. naive_solver.
Qed.

Lemma sorted_by_snoc (dist : gmap string (list pyval)) q w :
  sorted_by dist q → (∀ x, x ∈ q → lvl dist x ≤ lvl dist w) →
  sorted_by dist (q ++ [w]).
Proof.
  intros Hs Hw i j x y Hij Hi Hj.
  apply lookup_snoc_Some in Hj as [[Hlt Hj] | [-> ->]].
  - rewrite lookup_app_l in Hi by lia. exact (Hs i j x y Hij Hi Hj).
  - apply lookup_snoc_Some in Hi as [[Hlt Hi] | [_ ->]]; [| done].
    apply Hw. by eapply list_elem_of_lookup_2.
Qed.

Lemma sorted_by_ext (d1 d2 : gmap string (list pyval)) q :
  (∀ x, x ∈ q → lvl d2 x = lvl d1 x) → sorted_by d1 q → sorted_by d2 q.
Proof.
  intros Heq Hs i j x y Hij Hi Hj.
  rewrite !Heq by (by eapply list_elem_of_lookup_2). exact (Hs i j x y Hij Hi Hj).
Qed.

Lemma size_remove_fresh (U D : gset string) w :
  w ∈ U → w ∉ D → size (U ∖ D) = S (size (U ∖ ({[w]} ∪ D))).
Proof.
  intros HU HD.
  assert (U ∖ D = {[w]} ∪ U ∖ ({[w]} ∪ D)) as ->.
  { apply set_eq. intros x. destruct (decide (x = w)); set_solver. }
  rewrite size_union by set_solver. by rewrite size_singleton.
Qed.

Lemma size_list_to_set_le (l : list string) : size (list_to_set l : gset string) ≤ length l.
Proof.
  induction l as [|x l IH].
  - assert (size (list_to_set [] : gset string) = 0) as -> by reflexivity. done.
  - rewrite list_to_set_cons, size_union_alt, size_singleton. simpl.
    assert (list_to_set l ∖ {[x]} ⊆ (list_to_set l : gset string)) as Hsub by set_solver.
    apply subseteq_size in Hsub. lia.
Qed.

Section Traversal.

Variable set_iter : gset string → list string.
Hypothesis set_iter_perm : ∀ s, set_iter s ≡ₚ elements s.
Variable start : string.

(** The edges of the graph being traversed, and a finite set that holds
    every node an edge points to. *)
Variable nb : string → gset string.
Variable universe : gset string.
Hypothesis nb_universe : ∀ u, nb u ⊆ universe.

Lemma set_iter_elem s x : x ∈ set_iter s ↔ x ∈ s.
Proof. by rewrite set_iter_perm, elem_of_elements. Qed.

(** The state of the traversal at the head of the [while] loop. A node of
    [dist] that is no longer in the queue is closed: all its neighbours
    are in [dist]. *)
Record bfs_inv (dist : gmap string (list pyval)) (q : list string) : Prop := {
  bi_start : dist !! start = Some [PStr start];
  bi_walk : ∀ v, is_Some (dist !! v) → walk nb start (route dist v) v;
  bi_queue : ∀ x, x ∈ q → is_Some (dist !! x);
  bi_nodup : NoDup q;
  bi_sorted : sorted_by dist q;
  bi_span : ∀ x y, x ∈ q → y ∈ q → lvl dist y ≤ S (lvl dist x);
  bi_closed_le : ∀ c x,
    is_Some (dist !! c) → c ∉ q → x ∈ q → lvl dist c ≤ lvl dist x;
  bi_closed_edges : ∀ c w,
    is_Some (dist !! c) → c ∉ q → w ∈ nb c →
    is_Some (dist !! w) ∧ lvl dist w ≤ S (lvl dist c);
}.

(** The state inside the [for] loop over the neighbours of [u], of which
    [seen] have been visited. *)
Record visit_inv (u : string) (seen : list string)
    (dist : gmap string (list pyval)) (q : list string) : Prop := {
  vi_start : dist !! start = Some [PStr start];
  vi_walk : ∀ v, is_Some (dist !! v) → walk nb start (route dist v) v;
  vi_queue : ∀ x, x ∈ q → is_Some (dist !! x);
  vi_nodup : NoDup q;
  vi_at : is_Some (dist !! u);
  vi_at_out : u ∉ q;
  vi_sorted : sorted_by dist q;
  vi_bounds : ∀ x, x ∈ q → lvl dist u ≤ lvl dist x ≤ S (lvl dist u);
  vi_closed_le : ∀ c, is_Some (dist !! c) → c ∉ q → lvl dist c ≤ lvl dist u;
  vi_closed_edges : ∀ c w,
    is_Some (dist !! c) → c ∉ q → c ≠ u → w ∈ nb c →
    is_Some (dist !! w) ∧ lvl dist w ≤ S (lvl dist c);
  vi_seen : ∀ w, w ∈ seen → is_Some (dist !! w) ∧ lvl dist w ≤ S (lvl dist u);
}.

Lemma bfs_inv_init : bfs_inv {[start := [PStr start]]} [start].
Proof.
  split.
  - apply lookup_singleton_eq.
  - intros v [l Hv]. apply lookup_singleton_Some in Hv as [<- <-].
    unfold route. rewrite lookup_singleton_eq. apply walk_start.
  - intros x ->%list_elem_of_singleton. rewrite lookup_singleton_eq. eauto.
  - apply NoDup_singleton.
  - intros i j x y _ Hi Hj.
    apply list_lookup_singleton_Some in Hi as [_ <-].
    by apply list_lookup_singleton_Some in Hj as [_ <-].
  - intros x y ->%list_elem_of_singleton ->%list_elem_of_singleton. lia.
  - intros c x [l Hc] Hout _. apply lookup_singleton_Some in Hc as [<- _].
    exfalso. apply Hout. by apply list_elem_of_singleton.
  - intros c w [l Hc] Hout _. apply lookup_singleton_Some in Hc as [<- _].
    exfalso. apply Hout. by apply list_elem_of_singleton.
Qed.

(** Popping the head of the queue. *)
Lemma bfs_inv_pop dist u q : bfs_inv dist (u :: q) → visit_inv u [] dist q.
Proof.
  intros [Hst Hwalk Hq Hnd Hsort Hspan Hle Hedges].
  apply NoDup_cons in Hnd as [Hu Hnd].
  split; try done.
  - intros x Hx. apply Hq. by right.
  - apply Hq. by left.
  - intros i j x y Hij Hi Hj. by apply (Hsort (S i) (S j)); [lia | |].
  - intros x Hx. split.
    + apply list_elem_of_lookup_1 in Hx as [j Hj].
      by apply (Hsort 0 (S j)); [lia | |].
    + apply Hspan; [by left | by right].
  - intros c Hc Hout. destruct (decide (c = u)) as [->|Hne]; [done |].
    apply Hle; [done | | by left].
    intros [->|Hin]%elem_of_cons; done.
  - intros c w Hc Hout Hne. apply Hedges; [done |].
    intros [->|Hin]%elem_of_cons; done.
  - intros w Hw. by apply elem_of_nil in Hw.
Qed.

(** Leaving the [for] loop once every neighbour has been visited. *)
Lemma visit_inv_done dist u seen q :
  visit_inv u seen dist q → (∀ w, w ∈ nb u → w ∈ seen) → bfs_inv dist q.
Proof.
  intros [Hst Hwalk Hq Hnd Hat Hout Hsort Hb Hle Hedges Hseen] Hall.
  split; try done.
  - intros x y Hx Hy. pose proof (Hb x Hx). pose proof (Hb y Hy). lia.
  - intros c x Hc Hc' Hx. specialize (Hle c Hc Hc'). specialize (Hb x Hx). lia.
  - intros c w Hc Hc' Hw. destruct (decide (c = u)) as [->|Hne].
    + apply Hseen, Hall, Hw.
    + by apply Hedges.
Qed.

(** Visiting a neighbour that is already in [dist]. *)
Lemma visit_inv_known dist u seen q w :
  visit_inv u seen dist q → is_Some (dist !! w) → visit_inv u (seen ++ [w]) dist q.
Proof.
  intros [Hst Hwalk Hq Hnd Hat Hout Hsort Hb Hle Hedges Hseen] Hw.
  split; try done.
  intros w' [Hin | ->%list_elem_of_singleton]%elem_of_app; [by apply Hseen |].
  split; [done |]. destruct (decide (w ∈ q)) as [Hin|Hnin].
  - apply Hb, Hin.
  - specialize (Hle w Hw Hnin). lia.
Qed.

(** Visiting a neighbour that is new: it gets the path of [u] extended by
    itself, and goes to the end of the queue. *)
Lemma visit_inv_new dist u seen q w path_at :
  visit_inv u seen dist q → w ∈ nb u → dist !! w = None → dist !! u = Some path_at →
  visit_inv u (seen ++ [w]) (<[w := [PList path_at; PStr w]]> dist) (q ++ [w]).
Proof.
  intros [Hst Hwalk Hq Hnd Hat Hout Hsort Hb Hle Hedges Hseen] Hedge Hw Hu.
  assert (∀ x, is_Some (dist !! x) → x ≠ w) as Hfresh by (intros; by eapply fresh_ne).
  assert (u ≠ w) as Huw by auto.
  assert (w ∉ q) as Hwq by (intros Hin; by apply (Hfresh w); [apply Hq |]).
  pose proof (lvl_child dist u path_at w Hu) as Hlw.
  rewrite <- (lvl_insert_ne dist w [PList path_at; PStr w] u Huw) in Hlw.
  set (dist' := <[w := [PList path_at; PStr w]]> dist) in *.
  assert (∀ x, x ≠ w → lvl dist' x = lvl dist x) as Hsame
    by (intros; by apply lvl_insert_ne).
  assert (∀ x, x ∈ q → x ≠ w) as Hqw by (intros x Hx; apply Hfresh, Hq, Hx).
  assert (∀ x, x ∈ q → lvl dist' u ≤ lvl dist' x ≤ S (lvl dist' u)) as Hb'.
  { intros x Hx. rewrite !Hsame by auto. by apply Hb. }
  split.
  - unfold dist'. rewrite lookup_insert_ne; [done |].
    intros <-. by rewrite Hst in Hw.
  - intros v [-> | Hv]%is_Some_insert_fresh.
    + unfold dist'. rewrite (route_child _ u) by done.
      apply walk_step with u; [| done]. apply Hwalk. eauto.
    + unfold dist'. rewrite route_insert_ne by auto. by apply Hwalk.
  - intros x [Hx | ->%list_elem_of_singleton]%elem_of_app;
      apply is_Some_insert_fresh; auto.
  - apply NoDup_app. split_and!; [done | | apply NoDup_singleton].
    intros x Hx ->%list_elem_of_singleton. done.
  - apply is_Some_insert_fresh. auto.
  - intros [Hin | ->%list_elem_of_singleton]%elem_of_app; done.
  - apply sorted_by_snoc.
    + apply (sorted_by_ext dist); [| done]. intros x Hx. apply Hsame. auto.
    + intros x Hx. specialize (Hb' x Hx). lia.
  - intros x [Hx | ->%list_elem_of_singleton]%elem_of_app; [by apply Hb' | lia].
  - intros c [-> | Hc]%is_Some_insert_fresh Hnin.
    + exfalso. apply Hnin, elem_of_app. right. by apply list_elem_of_singleton.
    + rewrite !Hsame by auto. apply Hle; [done |].
      intros Hin. apply Hnin, elem_of_app. by left.
  - intros c w' [-> | Hc]%is_Some_insert_fresh Hnin Hne Hw'.
    + exfalso. apply Hnin, elem_of_app. right. by apply list_elem_of_singleton.
    + destruct (Hedges c w') as [Hsome Hlvl]; [done | | done | done |].
      { intros Hin. apply Hnin, elem_of_app. by left. }
      split; [apply is_Some_insert_fresh; by right |].
      rewrite !Hsame by auto. done.
  - intros w' [Hin | ->%list_elem_of_singleton]%elem_of_app.
    + destruct (Hseen w' Hin) as [Hsome Hlvl].
      split; [apply is_Some_insert_fresh; by right |].
      rewrite !Hsame by auto. done.
    + split; [apply is_Some_insert_fresh; by left | lia].
Qed.

(** The [for] loop: it completes, keeps the invariant, and every node it
    adds to [dist] it also adds to the queue. *)
Lemma visit_spec u nexts : ∀ seen dist q,
  visit_inv u seen dist q → (∀ w, w ∈ nexts → w ∈ nb u) →
  ∃ dist' q',
    visit nexts u dist q = Ok (dist', q')
    ∧ visit_inv u (seen ++ nexts) dist' q'
    ∧ size (universe ∖ dom dist') + length q' = size (universe ∖ dom dist) + length q
    ∧ (∀ x, is_Some (dist !! x) → is_Some (dist' !! x))
    ∧ (∀ x, x ∈ q' ↔ x ∈ q ∨ (is_Some (dist' !! x) ∧ dist !! x = None)).
Proof.
  induction nexts as [|w nexts IH]; intros seen dist q Hinv Hnb; simpl.
  - exists dist, q. rewrite app_nil_r. split_and!; try done.
    intros x. split; [auto |]. intros [Hx | [[l Hl] Hnone]]; [done | congruence].
  - assert (w ∈ nb u) as Hw by (apply Hnb; by left).
    assert (∀ w', w' ∈ nexts → w' ∈ nb u) as Hnb' by (intros; apply Hnb; by right).
    rewrite (cons_middle w seen nexts), app_assoc.
    destruct (decide (is_Some (dist !! w))) as [Hknown | Hnew].
    + apply (IH (seen ++ [w])); [| done]. by apply visit_inv_known.
    + apply eq_None_not_Some in Hnew.
      destruct (vi_at _ _ _ _ Hinv) as [path_at Hat]. rewrite Hat.
      destruct (IH (seen ++ [w]) (<[w := [PList path_at; PStr w]]> dist) (q ++ [w]))
        as (dist' & q' & Hrun & Hinv' & Hsize & Hmono & Hq'); [| done |].
      { by apply visit_inv_new. }
      exists dist', q'. split_and!; try done.
      * rewrite Hsize, dom_insert_L, length_app. simpl.
        rewrite (size_remove_fresh universe (dom dist) w).
        -- lia.
        -- by apply (nb_universe u).
        -- by apply not_elem_of_dom.
      * intros x Hx. apply Hmono, is_Some_insert_fresh. by right.
      * intros x. rewrite Hq', elem_of_app, list_elem_of_singleton.
        assert (is_Some (dist' !! w)) as Hw'.
        { apply Hmono. rewrite lookup_insert_eq. eauto. }
        destruct (decide (x = w)) as [->|Hne].
        -- rewrite lookup_insert_eq. naive_solver.
        -- rewrite lookup_insert_ne by done. naive_solver.
Qed.

(** The [while] loop: with enough fuel it completes, and then every node
    of [dist] is closed. It changes the graph only by giving an (empty)
    entry to nodes of [dist] that had none. *)
Lemma bfs_loop_spec fuel : ∀ g dist q,
  (∀ u, neighbors g u = nb u) →
  bfs_inv dist q →
  size (universe ∖ dom dist) + length q ≤ fuel →
  (∀ c, is_Some (dist !! c) → c ∉ q → is_Some (g !! c)) →
  ∃ g' dist',
    bfs_loop set_iter fuel g dist q = Ok (g', dist')
    ∧ bfs_inv dist' []
    ∧ (∀ u, neighbors g' u = nb u)
    ∧ (∀ c, is_Some (dist' !! c) → is_Some (g' !! c))
    ∧ (∀ k, is_Some (g' !! k) → is_Some (g !! k) ∨ is_Some (dist' !! k))
    ∧ (∀ k, is_Some (g !! k) → is_Some (g' !! k))
    ∧ (∀ x, is_Some (dist !! x) → is_Some (dist' !! x)).
Proof.
  induction fuel as [|fuel IH]; intros g dist [|u q] Hg Hinv Hfuel Hclosed; simpl.
  - exists g, dist. split_and!; auto.
    intros c Hc. apply Hclosed; [done | apply not_elem_of_nil].
  - simpl in Hfuel. lia.
  - exists g, dist. split_and!; auto.
    intros c Hc. apply Hclosed; [done | apply not_elem_of_nil].
  - pose proof (neighbors_getitem g u) as [Hnexts Hg1].
    pose proof (lookup_getitem g u) as Hlook.
    destruct (Graph.getitem g u) as [nexts g1]. simpl in *. subst nexts.
    destruct (visit_spec u (set_iter (neighbors g u)) [] dist q)
      as (dist1 & q1 & Hrun & Hinv1 & Hsize & Hmono & Hq1).
    { by apply bfs_inv_pop. }
    { intros w Hw. apply set_iter_elem in Hw. by rewrite <- Hg. }
    rewrite Hrun. simpl.
    apply visit_inv_done in Hinv1.
    2:{ intros w Hw. apply set_iter_elem. by rewrite Hg. }
    destruct (IH g1 dist1 q1)
      as (g' & dist' & Hloop & Hinv' & Hg' & Hent & Honly & Hkeep & Hmono').
    { intros v. by rewrite Hg1. }
    { done. }
    { lia. }
    { intros c Hc Hout. rewrite Hlook. case_decide; [eauto |].
      assert (is_Some (dist !! c)) as Hc0.
      { destruct (dist !! c) eqn:E; [eauto |]. exfalso. apply Hout, Hq1. auto. }
      apply Hclosed; [done |].
      intros [->|Hin]%elem_of_cons; [done |]. apply Hout, Hq1. auto. }
    exists g', dist'. split_and!; auto.
    + intros k Hk. destruct (Honly k Hk) as [Hk1 | Hk1]; [| by right].
      rewrite Hlook in Hk1. case_decide; [| by left]. subst k.
      right. apply Hmono', Hmono, (bi_queue _ _ Hinv). by left.
    + intros k Hk. apply Hkeep. rewrite Hlook. case_decide; eauto.
Qed.

(** When the loop is over, [dist] holds a shortest path for every node
    that can be reached. *)
Lemma closed_complete dist p t :
  bfs_inv dist [] → walk nb start p t →
  is_Some (dist !! t) ∧ lvl dist t ≤ length p.
Proof.
  intros Hinv. induction 1 as [|p u v Hwalk [Hu Hlen] Hedge].
  - pose proof (bi_start _ _ Hinv) as Hst. split; [eauto |].
    unfold lvl, route. by rewrite Hst.
  - destruct (bi_closed_edges _ _ Hinv u v) as [Hv Hlvl]; [done | | done |].
    { apply not_elem_of_nil. }
    split; [done |]. rewrite length_app. simpl. lia.
Qed.

End Traversal.

(** [shortest_path] with enough fuel: the [dist] it has built when the
    loop ends, and the graph it leaves. [universe] is any finite set that
    holds the nodes the edges point to. *)
Lemma shortest_path_run_in (universe : gset string) set_iter start target fuel
    (g : Graph.t) :
  (∀ s, set_iter s ≡ₚ elements s) →
  (∀ u, neighbors g u ⊆ universe) →
  size universe < fuel →
  ∃ (g' : Graph.t) (dist : gmap string (list pyval)),
    shortest_path set_iter start target fuel g = Ok (route dist target, g')
    ∧ dist !! start = Some [PStr start]
    ∧ (∀ v, is_Some (dist !! v) → walk (neighbors g) start (route dist v) v)
    ∧ (∀ v p, walk (neighbors g) start p v →
         is_Some (dist !! v) ∧ length (route dist v) ≤ length p)
    ∧ (∀ u, neighbors g' u = neighbors g u)
    ∧ (∀ k, is_Some (g' !! k) ↔ is_Some (g !! k) ∨ is_Some (dist !! k)).
Proof.
  intros Hperm Huniv Hfuel. unfold shortest_path.
  destruct (bfs_loop_spec set_iter Hperm start (neighbors g) universe
              Huniv fuel g {[start := [PStr start]]} [start])
    as (g' & dist & Hloop & Hinv & Hg' & Hent & Honly & Hkeep & Hmono).
  - done.
  - apply bfs_inv_init.
  - simpl. pose proof (subseteq_size (universe ∖ dom ({[start := [PStr start]]}
      : gmap string (list pyval))) universe) as Hle.
    assert (universe ∖ dom ({[start := [PStr start]]}
      : gmap string (list pyval)) ⊆ universe) as Hsub by set_solver.
    specialize (Hle Hsub). lia.
  - intros c [l Hc] Hout. apply lookup_singleton_Some in Hc as [<- _].
    exfalso. apply Hout. by apply list_elem_of_singleton.
  - exists g', dist. rewrite Hloop. simpl. split_and!.
    + done.
    + apply (bi_start _ _ _ _ Hinv).
    + apply (bi_walk _ _ _ _ Hinv).
    + intros v p Hp. by apply (closed_complete start (neighbors g) dist p v).
    + done.
    + intros k. split; [apply Honly |]. intros [Hk | Hk]; auto.
Qed.

Lemma shortest_path_run set_iter start target fuel (g : Graph.t) :
  (∀ s, set_iter s ≡ₚ elements s) →
  size (targets g) < fuel →
  ∃ (g' : Graph.t) (dist : gmap string (list pyval)),
    shortest_path set_iter start target fuel g = Ok (route dist target, g')
    ∧ dist !! start = Some [PStr start]
    ∧ (∀ v, is_Some (dist !! v) → walk (neighbors g) start (route dist v) v)
    ∧ (∀ v p, walk (neighbors g) start p v →
         is_Some (dist !! v) ∧ length (route dist v) ≤ length p)
    ∧ (∀ u, neighbors g' u = neighbors g u)
    ∧ (∀ k, is_Some (g' !! k) ↔ is_Some (g !! k) ∨ is_Some (dist !! k)).
Proof.
  intros Hperm Hfuel.
  by apply (shortest_path_run_in (targets g)); [| apply neighbors_targets |].
Qed.

(** What the traversal computes. With fuel for every node, the list
    that [dist] holds for the target when the loop ends is empty when the
    edges lead from start to target by no path, and otherwise a path that
    begins with start, ends with target, follows the edges, and has no
    more nodes than any path from start to target. *)
Lemma shortest_path_bfs set_iter start target fuel (g : Graph.t) :
  (∀ s, set_iter s ≡ₚ elements s) →
  size (targets g) < fuel →
  ∃ path g',
    shortest_path set_iter start target fuel g = Ok (path, g')
    ∧ ((∀ p, ¬ walk (neighbors g) start p target) → path = [])
    ∧ (∀ p, walk (neighbors g) start p target →
         walk (neighbors g) start path target
         ∧ head path = Some start ∧ last path = Some target
         ∧ length path ≤ length p).
Proof.
  intros Hperm Hfuel.
  destruct (shortest_path_run set_iter start target fuel g Hperm Hfuel)
    as (g' & dist & Hrun & _ & Hsound & Hcomplete & _).
  exists (route dist target), g'. split_and!; [done | |].
  - intros Hnone. unfold route. destruct (dist !! target) eqn:E; [| done].
    exfalso. apply (Hnone (route dist target)), Hsound. eauto.
  - intros p Hp. destruct (Hcomplete target p Hp) as [Hin Hlen].
    pose proof (Hsound target Hin) as Hwalk.
    destruct (walk_ends _ _ _ _ Hwalk). done.
Qed.

(** *** [_flatten] on the stack *)

Lemma flatten_frames_nil frames : flatten_frames (S frames) [] = Ok [].
Proof. reflexivity. Qed.

Lemma flatten_frames_str frames s items :
  flatten_frames (S frames) (PStr s :: items)
  = rest ← flatten_frames (S frames) items; Ok (s :: rest).
Proof. reflexivity. Qed.

Lemma flatten_frames_list frames sublist items :
  flatten_frames (S frames) (PList sublist :: items)
  = yielded ← flatten_frames frames sublist;
    rest ← flatten_frames (S frames) items;
    Ok (yielded ++ rest).
Proof. reflexivity. Qed.

Lemma depth_nil : depth [] = 1.
Proof. reflexivity. Qed.

Lemma depth_str s items : depth (PStr s :: items) = depth items.
Proof. reflexivity. Qed.

Lemma depth_list sublist items :
  depth (PList sublist :: items) = S (depth sublist) `max` depth items.
Proof. unfold depth. simpl. lia. Qed.

Lemma depth_pos items : 0 < depth items.
Proof. unfold depth. simpl. lia. Qed.

(** [_flatten] returns exactly when the nesting of its argument fits the
    stack, and then the strings of the argument from left to right. *)
Lemma flatten_frames_spec frames : ∀ iterable,
  flatten_frames frames iterable =
  if decide (depth iterable ≤ frames) then Ok (flat_map flatten_item iterable) else Raise.
Proof.
  induction frames as [|frames IH]; intros iterable.
  - pose proof (depth_pos iterable). case_decide; [lia | done].
  - induction iterable as [|[s|sublist] items IHitems].
    + rewrite flatten_frames_nil, depth_nil. case_decide; [done | lia].
    + rewrite flatten_frames_str, depth_str, IHitems. by case_decide.
    + rewrite flatten_frames_list, depth_list, IH, IHitems.
      repeat case_decide; try lia; done.
Qed.

Lemma nested_init start : nested {[start := [PStr start]]}.
Proof. intros v l [_ <-]%lookup_singleton_Some. reflexivity. Qed.

Lemma visit_nested nexts at_ : ∀ dist q dist' q',
  nested dist → visit nexts at_ dist q = Ok (dist', q') → nested dist'.
Proof.
  induction nexts as [|next_ nexts IH]; intros dist q dist' q' Hn; simpl.
  - by intros [= <- _].
  - case_decide; [by apply IH |].
    destruct (dist !! at_) as [path_at|] eqn:Hat; [| done].
    apply IH. intros v l. destruct (decide (v = next_)) as [->|Hne].
    + rewrite lookup_insert_eq. intros [= <-].
      rewrite depth_list, depth_str, depth_nil. simpl.
      rewrite length_app. simpl.
      rewrite <- (Hn at_ path_at Hat). unfold depth. simpl. lia.
    + rewrite lookup_insert_ne by done. apply Hn.
Qed.

Lemma bfs_loop_nested set_iter fuel : ∀ g dist q g' dist',
  nested dist → bfs_loop set_iter fuel g dist q = Ok (g', dist') → nested dist'.
Proof.
  induction fuel as [|fuel IH]; intros g dist [|at_ q] g' dist' Hn; simpl;
    try (by intros [= _ <-]); try done.
  destruct (Graph.getitem g at_) as [nexts g1].
  destruct (visit (set_iter nexts) at_ dist q) as [[dist1 q1]| |] eqn:Hvisit; simpl;
    [| done | done].
  apply IH. by eapply visit_nested.
Qed.

(** [shortest_path] on the stack: the traversal is a loop and takes no
    frame; flattening the recorded path takes one frame per node, and one
    frame when nothing is recorded for the target. *)
Lemma shortest_path_limited_spec set_iter start target frames fuel (g : Graph.t) :
  shortest_path_limited set_iter start target frames fuel g =
  match shortest_path set_iter start target fuel g with
  | Ok (path, g') => if decide (1 `max` length path ≤ frames) then Ok (path, g') else Raise
  | Raise => Raise
  | OutOfFuel => OutOfFuel
  end.
Proof.
  unfold shortest_path_limited, shortest_path.
  destruct (bfs_loop set_iter fuel g {[start := [PStr start]]} [start])
    as [[g' dist]| |] eqn:Hloop; simpl; [| done | done].
  pose proof (bfs_loop_nested _ _ _ _ _ _ _ (nested_init start) Hloop) as Hn.
  unfold _flatten_limited, _flatten. rewrite flatten_frames_spec.
  destruct (dist !! target) as [l|] eqn:Ht; simpl.
  - rewrite (Hn target l Ht). pose proof (depth_pos l) as Hpos.
    rewrite (Hn target l Ht) in Hpos.
    repeat case_decide; try lia; done.
  - rewrite depth_nil. repeat case_decide; simpl in *; try lia; done.
Qed.

(** C2, on the code. [shortest_path] runs the breadth-first loop
    [bfs_loop] from the start node over the edges the graph holds when it
    is called, and [dist[target]] is then a shortest path, nested one list
    per node. With fuel for every node: when the edges lead from start to
    target by no path it returns the empty list; when they do, it returns
    a path of the least number of nodes that begins with start, ends with
    target and follows the edges, provided the stack has room for one
    frame of [_flatten] per node of that path; and when every path from
    start to target has more nodes than the stack has room for frames, it
    raises [RecursionError] and returns no path. This holds for every
    graph, every iteration order of its sets, and every size of the
    stack. *)
Theorem shortest_path_recursion_limit set_iter start target frames fuel (g : Graph.t) :
  (∀ s, set_iter s ≡ₚ elements s) →
  size (targets g) < fuel →
  ((∀ p, ¬ walk (neighbors g) start p target) → 0 < frames →
     ∃ g', shortest_path_limited set_iter start target frames fuel g = Ok ([], g'))
  ∧ (∀ p, walk (neighbors g) start p target → length p ≤ frames →
       ∃ path g',
         shortest_path_limited set_iter start target frames fuel g = Ok (path, g')
         ∧ walk (neighbors g) start path target
         ∧ head path = Some start ∧ last path = Some target
         ∧ ∀ p', walk (neighbors g) start p' target → length path ≤ length p')
  ∧ (∀ p, walk (neighbors g) start p target →
       (∀ p', walk (neighbors g) start p' target → frames < length p') →
       shortest_path_limited set_iter start target frames fuel g = Raise).
Proof.
  intros Hperm Hfuel. rewrite shortest_path_limited_spec.
  destruct (shortest_path_bfs set_iter start target fuel g Hperm Hfuel)
    as (path & g' & -> & Hnone & Hsome).
  split_and!.
  - intros Hno Hframes. exists g'. rewrite (Hnone Hno). simpl.
    case_decide; [done | lia].
  - intros p Hp Hlen. destruct (Hsome p Hp) as (Hwalk & Hhead & Hlast & Hle).
    exists path, g'. split_and!; try done.
    + assert (0 < length path) by (destruct path; [done | simpl; lia]).
      case_decide; [done | lia].
    + intros p' Hp'. by apply (Hsome p' Hp').
  - intros p Hp Hdeep. destruct (Hsome p Hp) as (Hwalk & _).
    specialize (Hdeep path Hwalk). case_decide; [lia | done].
Qed.

(** *** A chain of pages *)

Lemma page_inj j k : page j = page k → j = k.
Proof.
  unfold page. rewrite !append_cons, !append_nil. intros [= H].
  by apply (inj pretty) in H.
Qed.

Lemma neighbors_chain n k :
  neighbors (chain n) (page k) = if decide (k < n) then {[page (S k)]} else ∅.
Proof.
  induction n as [|n IH]; simpl.
  - unfold neighbors. rewrite lookup_empty. destruct (decide (k < 0)); [lia | done].
  - rewrite neighbors_add, IH. destruct (decide (page k = page n)) as [Heq|Hne].
    + apply page_inj in Heq as ->. repeat case_decide; try lia. set_solver.
    + assert (k ≠ n) by congruence. repeat case_decide; try lia; done.
Qed.

Lemma lookup_chain n u s : chain n !! u = Some s → ∃ k, k < n ∧ u = page k.
Proof.
  induction n as [|n IH]; simpl; [by rewrite lookup_empty |].
  rewrite lookup_add. destruct (decide (u = page n)) as [Heq|Hne].
  - intros _. exists n. split; [lia | done].
  - intros Hu. destruct (IH Hu) as (k & Hk & ->). exists k. split; [lia | done].
Qed.

Lemma targets_chain n : size (targets (chain n)) ≤ n.
Proof.
  assert (targets (chain n) ⊆ list_to_set (page <$> seq 1 n)) as Hsub.
  { intros x Hx. unfold targets in Hx. apply elem_of_union_list in Hx as (s & Hs & Hx).
    apply list_elem_of_fmap in Hs as ([u s'] & -> & Hus). simpl in Hx.
    apply elem_of_map_to_list in Hus.
    destruct (lookup_chain n u s' Hus) as (k & Hk & ->).
    assert (x ∈ neighbors (chain n) (page k)) as Hn
      by (unfold neighbors; by rewrite Hus).
    rewrite neighbors_chain in Hn. case_decide; [| lia].
    apply elem_of_singleton in Hn as ->.
    apply elem_of_list_to_set, list_elem_of_fmap. exists (S k). split; [done |].
    apply elem_of_seq. lia. }
  apply subseteq_size in Hsub.
  pose proof (size_list_to_set_le (page <$> seq 1 n)) as Hle.
  rewrite length_fmap, length_seq in Hle. lia.
Qed.

(** Along the chain, page [k] is reached by one path, of [k + 1] nodes. *)
Lemma walk_chain n p t :
  walk (neighbors (chain n)) (page 0) p t → ∃ k, t = page k ∧ length p = S k.
Proof.
  induction 1 as [|p u v Hwalk (k & -> & Hlen) Hedge].
  - by exists 0.
  - rewrite neighbors_chain in Hedge. case_decide; [| set_solver].
    apply elem_of_singleton in Hedge as ->. exists (S k).
    split; [done |]. rewrite length_app. simpl. lia.
Qed.

Lemma chain_walk n k :
  k ≤ n → ∃ p, walk (neighbors (chain n)) (page 0) p (page k).
Proof.
  induction k as [|k IH]; intros Hk.
  - exists [page 0]. apply walk_start.
  - destruct IH as [p Hp]; [lia |]. exists (p ++ [page (S k)]).
    apply walk_step with (page k); [done |].
    rewrite neighbors_chain. case_decide; [set_solver | lia].
Qed.

(** The chain of 1001 pages, with room for 1000 frames. *)
Lemma shortest_path_recursion_limit_witness :
  shortest_path_limited elements (page 0) (page 1000) 1000 1001 (chain 1000) = Raise.
Proof.
  destruct (chain_walk 1000 1000) as [p Hp]; [lia |].
  assert (size (targets (chain 1000)) < 1001) as Hfuel
    by (pose proof (targets_chain 1000); lia).
  apply (proj2 (proj2 (shortest_path_recursion_limit elements (page 0) (page 1000)
                         1000 1001 (chain 1000) (λ s, reflexivity _) Hfuel)) p Hp).
  intros p' Hp'. destruct (walk_chain _ _ _ Hp') as (k & Hk & ->).
  apply page_inj in Hk as <-. lia.
Defined.

(** C10. When the target is the start node, [shortest_path] returns the
    one-element list [[start]], whatever the graph holds. *)
Theorem shortest_path_start_is_target set_iter start fuel (g : Graph.t) :
  (∀ s, set_iter s ≡ₚ elements s) →
  size (targets g) < fuel →
  ∃ g', shortest_path set_iter start start fuel g = Ok ([start], g').
Proof.
  intros Hperm Hfuel.
  destruct (shortest_path_run set_iter start start fuel g Hperm Hfuel)
    as (g' & dist & Hrun & Hst & _).
  exists g'. rewrite Hrun. unfold route. by rewrite Hst.
Qed.

Lemma shortest_path_start_is_target_witness :
  ∃ g', shortest_path elements "s" "s" 1 ∅ = Ok (["s"], g').
Proof.
  apply (shortest_path_start_is_target elements "s" 1 ∅).
  - intros s. reflexivity.
  - vm_compute. lia.
Defined.

(** C7, as the claim states it, fails: on the empty graph [shortest_path]
    leaves an entry for the start node, which had none. *)
Lemma shortest_path_inserts_start :
  shortest_path elements "s" "t" 1 ∅ = Ok ([], {["s" := ∅]})
  ∧ Graph.contains ∅ "s" = false
  ∧ Graph.contains {["s" := ∅]} "s" = true.
Proof. vm_compute. done. Qed.

(** C7, amended. [shortest_path] changes the out-edges of no node and
    removes no entry; it adds an entry, with an empty set, for exactly
    the nodes without entry that the recorded edges reach from the start
    node (the start node included). *)
Theorem shortest_path_frame set_iter start target fuel (g : Graph.t) :
  (∀ s, set_iter s ≡ₚ elements s) →
  size (targets g) < fuel →
  ∃ path g',
    shortest_path set_iter start target fuel g = Ok (path, g')
    ∧ (∀ u, neighbors g' u = neighbors g u)
    ∧ (∀ k s, g !! k = Some s → g' !! k = Some s)
    ∧ (∀ k, g !! k = None →
         ((∃ p, walk (neighbors g) start p k) ∧ g' !! k = Some ∅)
         ∨ ((∀ p, ¬ walk (neighbors g) start p k) ∧ g' !! k = None)).
Proof.
  intros Hperm Hfuel.
  destruct (shortest_path_run set_iter start target fuel g Hperm Hfuel)
    as (g' & dist & Hrun & _ & Hsound & Hcomplete & Hnb & Hdom).
  exists (route dist target), g'. split_and!; [done | done | |].
  - intros k s Hk. destruct (proj2 (Hdom k)) as [s' Hk']; [eauto |].
    pose proof (Hnb k) as Hn. unfold neighbors in Hn. rewrite Hk, Hk' in Hn.
    simpl in Hn. by subst.
  - intros k Hk. pose proof (Hnb k) as Hn. unfold neighbors in Hn.
    rewrite Hk in Hn. simpl in Hn.
    destruct (decide (is_Some (dist !! k))) as [Hin | Hout].
    + left. split; [eauto |].
      destruct (proj2 (Hdom k)) as [s' Hk']; [eauto |].
      rewrite Hk' in Hn. simpl in Hn. by subst.
    + right. split.
      * intros p Hp. apply Hout. by apply (Hcomplete k p).
      * apply eq_None_not_Some. rewrite Hdom. intros [[s Hs] | Hs]; [congruence | done].
Qed.

Lemma shortest_path_frame_witness :
  ∃ path g',
    shortest_path elements "s" "t" 1 ∅ = Ok (path, g')
    ∧ (∀ u, neighbors g' u = neighbors ∅ u)
    ∧ (∀ k s, (∅ : Graph.t) !! k = Some s → g' !! k = Some s)
    ∧ (∀ k, (∅ : Graph.t) !! k = None →
         ((∃ p, walk (neighbors ∅) "s" p k) ∧ g' !! k = Some ∅)
         ∨ ((∀ p, ¬ walk (neighbors ∅) "s" p k) ∧ g' !! k = None)).
Proof.
  apply (shortest_path_frame elements "s" "t" 1 ∅).
  - intros s. reflexivity.
  - vm_compute. lia.
Defined.

(** ** [_process_links] *)

Lemma lookup_add_edges_ne g current vs u :
  u ≠ current → add_edges g current vs !! u = g !! u.
Proof.
  intros Hne. revert g. induction vs as [|v vs IH]; intros g; simpl; [done |].
  rewrite IH, lookup_add. by case_decide.
Qed.

Lemma neighbors_add_edges g current vs u :
  neighbors (add_edges g current vs) u =
  if decide (u = current) then neighbors g current ∪ list_to_set vs else neighbors g u.
Proof.
  revert g. induction vs as [|v vs IH]; intros g; simpl.
  - case_decide; subst; set_solver.
  - rewrite IH. destruct (decide (u = current)) as [->|Hne].
    + rewrite neighbors_add, decide_True by done. set_solver.
    + by rewrite neighbors_add, decide_False.
Qed.

Lemma contains_add_edges g current v vs :
  Graph.contains (add_edges g current (v :: vs)) current = true.
Proof.
  apply contains_true. simpl.
  assert (is_Some (Graph.add g current v !! current)) as H.
  { rewrite lookup_add, decide_True by done. eauto. }
  revert H. generalize (Graph.add g current v). clear g.
  induction vs as [|w vs IH]; intros g Hg; simpl; [done |].
  apply IH. rewrite lookup_add, decide_True by done. eauto.
Qed.

Section ProcessLinks.

Variable lower : string → string.
Variable join : string → string → string.
Variables (target : string) (keywords : list string).

(** The loop of [_process_links] in closed form: the pairs before the
    first one that resolves to the target are recorded and enqueued, that
    one is recorded and sets the event, the ones after it are ignored. *)
Lemma process_loop_spec pairs current : ∀ st,
  ∃ pre post,
    resolve join current pairs = pre ++ post
    ∧ Forall (λ e, e.2 ≠ target) pre
    ∧ match post with
      | [] =>
          process_loop join target pairs current st =
          mkCrawler (_queue st ++ pre) (add_edges (_graph st) current pre.*2)
            (_target_found st) (_semaphore st) (workers st)
      | hit :: _ =>
          hit.2 = target ∧
          process_loop join target pairs current st =
          mkCrawler (_queue st ++ pre)
            (add_edges (_graph st) current (pre.*2 ++ [target]))
            true (_semaphore st) (workers st)
      end.
Proof.
  induction pairs as [|[priority url] pairs IH]; intros st; simpl.
  - exists [], []. split_and!; [done | done |].
    destruct st; simpl. by rewrite app_nil_r.
  - case_decide as Hurl.
    + exists [], ((priority, join current url) :: resolve join current pairs).
      split_and!; [done | done | done |].
      destruct st; simpl. by rewrite app_nil_r, Hurl.
    + destruct (IH (set_queue (pq_put (_queue st) (priority, join current url))
                      (set_graph (Graph.add (_graph st) current (join current url)) st)))
        as (pre & post & Hsplit & Hpre & Hpost).
      exists ((priority, join current url) :: pre), post.
      split_and!.
      * simpl. by rewrite Hsplit.
      * by constructor.
      * unfold pq_put in Hpost. simpl in Hpost. rewrite <- app_assoc in Hpost.
        destruct post; simpl; exact Hpost.
Qed.

(** [_process_links] in closed form. *)
Lemma process_links_closed (links : list Tag) (current : string) (st : crawler) :
  ∃ pre post,
    resolve join current (_prioritize_by_keyword lower links (Some keywords)) = pre ++ post
    ∧ Forall (λ e, e.2 ≠ target) pre
    ∧ match post with
      | [] =>
          _process_links lower join target keywords links current st =
          mkCrawler (_queue st ++ pre) (add_edges (_graph st) current pre.*2)
            (_target_found st) (_semaphore st) (workers st)
      | hit :: _ =>
          hit.2 = target ∧
          _process_links lower join target keywords links current st =
          mkCrawler (_queue st ++ pre)
            (add_edges (_graph st) current (pre.*2 ++ [target]))
            true (_semaphore st) (workers st)
      end.
Proof. apply process_loop_spec. Qed.

Lemma process_links_workers links current st :
  workers (_process_links lower join target keywords links current st) = workers st.
Proof.
  destruct (process_links_closed links current st) as (pre & [|hit post] & _ & _ & Hpost).
  - by rewrite Hpost.
  - destruct Hpost as [_ ->]. done.
Qed.

Lemma process_links_queue links current st :
  ∃ added, _queue (_process_links lower join target keywords links current st)
           = _queue st ++ added.
Proof.
  destruct (process_links_closed links current st) as (pre & [|hit post] & _ & _ & Hpost).
  - exists pre. by rewrite Hpost.
  - destruct Hpost as [_ ->]. by exists pre.
Qed.

Lemma process_links_target_found links current st :
  _target_found st = true →
  _target_found (_process_links lower join target keywords links current st) = true.
Proof.
  intros Hset.
  destruct (process_links_closed links current st) as (pre & [|hit post] & _ & _ & Hpost).
  - by rewrite Hpost.
  - destruct Hpost as [_ ->]. done.
Qed.

(** An edge to the target is recorded only together with the event. *)
Lemma process_links_edge_signal links current st :
  (∀ u, target ∈ neighbors (_graph st) u → _target_found st = true) →
  ∀ u,
    target ∈ neighbors (_graph (_process_links lower join target keywords links current st)) u →
       _target_found (_process_links lower join target keywords links current st) = true.
Proof.
  intros Hinv u.
  destruct (process_links_closed links current st) as (pre & [|hit post] & _ & Hpre & Hpost).
  - rewrite Hpost. simpl. rewrite neighbors_add_edges.
    case_decide; [| by apply Hinv]. subst u.
    intros [Hin | Hin]%elem_of_union; [by apply (Hinv current) |].
    exfalso. apply elem_of_list_to_set, list_elem_of_fmap in Hin as (e & He & Hin).
    rewrite Forall_forall in Hpre. by apply (Hpre e).
  - destruct Hpost as [_ ->]. done.
Qed.

(** A page with at least one article link has an entry afterwards. *)
Lemma process_links_marks link links current st :
  Graph.contains (_graph (_process_links lower join target keywords (link :: links) current st))
    current = true.
Proof.
  destruct (process_links_closed (link :: links) current st)
    as (pre & post & Hsplit & _ & Hpost).
  destruct post as [|hit post].
  - rewrite Hpost. simpl. rewrite app_nil_r in Hsplit.
    destruct pre as [|e pre]; [discriminate |]. apply contains_add_edges.
  - destruct Hpost as [_ ->]. simpl.
    destruct pre as [|e pre]; apply contains_add_edges.
Qed.

(** A page without article links leaves the crawler as it was: no entry
    is made for the page. *)
Lemma process_links_nil current st :
  _process_links lower join target keywords [] current st = st.
Proof. reflexivity. Qed.

(** C3. [_process_links] takes the links in their order: each href is
    resolved against the page and the edge to it is recorded; the first
    link that resolves to the target is recorded too, sets the event and
    ends the loop, so that no later link is recorded or enqueued; every
    link before it is enqueued with its priority. The target is not among
    the enqueued nodes, so a queue without the target stays without it. *)
Theorem process_links_in_order (links : list Tag) (current : string) (st : crawler) :
  let pairs := resolve join current (_prioritize_by_keyword lower links (Some keywords)) in
  let st' := _process_links lower join target keywords links current st in
  ∃ pre post,
    pairs = pre ++ post
    ∧ Forall (λ e, e.2 ≠ target) pre
    ∧ _queue st' = _queue st ++ pre
    ∧ match post with
      | [] =>
          _graph st' = add_edges (_graph st) current pre.*2
          ∧ _target_found st' = _target_found st
      | hit :: _ =>
          hit.2 = target
          ∧ _graph st' = add_edges (_graph st) current (pre.*2 ++ [target])
          ∧ _target_found st' = true
      end
    ∧ (∀ v, v ∈ neighbors (_graph st') current ↔
            v ∈ neighbors (_graph st) current ∨ v ∈ pre.*2
            ∨ (v = target ∧ post ≠ []))
    ∧ (∀ u, u ≠ current → _graph st' !! u = _graph st !! u)
    ∧ (Forall (λ e, e.2 ≠ target) (_queue st) → Forall (λ e, e.2 ≠ target) (_queue st')).
Proof.
  cbv zeta.
  destruct (process_links_closed links current st) as (pre & post & Hsplit & Hpre & Hpost).
  exists pre, post. destruct post as [|hit post].
  - rewrite Hpost. simpl. split_and!; try done.
    + intros v. rewrite neighbors_add_edges, decide_True by done.
      rewrite elem_of_union, elem_of_list_to_set. naive_solver.
    + intros u Hu. by apply lookup_add_edges_ne.
    + intros Hq. by apply Forall_app.
  - destruct Hpost as [Hhit ->]. simpl. split_and!; try done.
    + intros v. rewrite neighbors_add_edges, decide_True by done.
      rewrite elem_of_union, elem_of_list_to_set, elem_of_app, list_elem_of_singleton.
      naive_solver.
    + intros u Hu. by apply lookup_add_edges_ne.
    + intros Hq. by apply Forall_app.
Qed.

End ProcessLinks.

(** ** The worker pool *)

Section Pool.

Variable lower : string → string.
Variable join : string → string → string.
Variable url_leb : string → string → bool.
Variable fetch : string → response.
Variables (target : string) (keywords : list string).

Notation step := (step lower join url_leb fetch target keywords).

(** [get] removes one entry and keeps the others. *)
Lemma pq_get_perm q e r : pq_get url_leb q = Some (e, r) → q ≡ₚ e :: r.
Proof.
  revert e r. induction q as [|x q IH]; intros e r; simpl; [done |].
  destruct (pq_get url_leb q) as [[m r']|] eqn:Hq.
  - specialize (IH m r' eq_refl). case_match; intros [= <- <-]; [done |].
    rewrite IH. apply Permutation_swap.
  - intros [= <- <-]. destruct q as [|y q]; [done |].
    simpl in Hq. repeat case_match; discriminate.
Qed.

Lemma pq_get_nil_iff q : pq_get url_leb q = None ↔ q = [].
Proof.
  split; [| by intros ->]. destruct q as [|x q]; [done |]. simpl.
  repeat case_match; discriminate.
Qed.

Lemma take_fields i e q st :
  _target_found (take i e q st) = _target_found st
  ∧ _graph (take i e q st) = _graph st
  ∧ _queue (take i e q st) = q
  ∧ ∃ t, t ≠ InGet ∧ workers (take i e q st) = <[i := t]> (workers st).
Proof.
  unfold take. simpl. repeat case_match; simpl; split_and!; try done;
    eexists; (split; [| reflexivity]); done.
Qed.

Lemma insert_other_task (ts : list task) i t j :
  t ≠ InGet → <[i := t]> ts !! j = Some InGet → ts !! j = Some InGet.
Proof.
  intros Ht Hj.
  apply list_lookup_insert_Some in Hj as [(-> & Heq & _) | [_ Hj]]; [congruence | done].
Qed.

(** The event is never cleared, and an edge to the target is in the graph
    only when the event is set. *)
Lemma worker_keeps_signal i st st' :
  _worker lower join url_leb fetch target keywords i st = Some st' →
  (_target_found st = true → _target_found st' = true)
  ∧ ((∀ u, target ∈ neighbors (_graph st) u → _target_found st = true) →
     ∀ u, target ∈ neighbors (_graph st') u → _target_found st' = true).
Proof.
  unfold _worker. intros Hstep.
  destruct (workers st !! i) as [[| |current|current|]|]; try discriminate.
  - destruct (_target_found st) eqn:Hf.
    + injection Hstep as <-. done.
    + destruct (pq_get url_leb (_queue st)) as [[e q]|]; injection Hstep as <-.
      * destruct (take_fields i e q st) as (-> & -> & _). rewrite Hf. done.
      * simpl. rewrite Hf. done.
  - destruct (pq_get url_leb (_queue st)) as [[e q]|]; [| discriminate].
    injection Hstep as <-. destruct (take_fields i e q st) as (-> & -> & _). done.
  - destruct (_semaphore st); [discriminate |]. injection Hstep as <-. done.
  - destruct (fetch current) as [|source]; injection Hstep as <-; simpl; [done |].
    split.
    + intros Hf. by apply process_links_target_found.
    + intros Hinv. by apply process_links_edge_signal.
Qed.

(** Once the event is set, resuming a task sends no task into [get], and
    only a task that was already inside [get] takes an entry from the
    queue. *)
Lemma worker_after_signal i st st' :
  _target_found st = true →
  _worker lower join url_leb fetch target keywords i st = Some st' →
  (∀ j, workers st' !! j = Some InGet → workers st !! j = Some InGet)
  ∧ (workers st !! i ≠ Some InGet → ∃ added, _queue st' = _queue st ++ added).
Proof.
  unfold _worker. intros Hf Hstep. rewrite Hf in Hstep.
  destruct (workers st !! i) as [[| |current|current|]|]; try discriminate.
  - injection Hstep as <-. simpl. split.
    + intros j. by apply insert_other_task.
    + intros _. exists []. by rewrite app_nil_r.
  - destruct (pq_get url_leb (_queue st)) as [[e q]|]; [| discriminate].
    injection Hstep as <-. split; [| done].
    destruct (take_fields i e q st) as (_ & _ & _ & t & Ht & ->).
    intros j. by apply insert_other_task.
  - destruct (_semaphore st); [discriminate |]. injection Hstep as <-. simpl. split.
    + intros j. by apply insert_other_task.
    + intros _. exists []. by rewrite app_nil_r.
  - destruct (fetch current) as [|source]; injection Hstep as <-; simpl.
    + split; [intros j; by apply insert_other_task |].
      intros _. exists []. by rewrite app_nil_r.
    + rewrite process_links_workers. simpl.
      split; [intros j; by apply insert_other_task |]. intros _.
      apply (process_links_queue lower join target keywords (_get_article_links source)
               current (set_semaphore (S (_semaphore st)) st)).
Qed.

Lemma seeded_signal start concurrent st0 :
  seeded lower join fetch start target concurrent keywords = Some st0 →
  ∀ u, target ∈ neighbors (_graph st0) u → _target_found st0 = true.
Proof.
  unfold seeded. destruct (fetch start) as [|source]; [discriminate |].
  intros [= <-]. simpl.
  apply (process_links_edge_signal lower join target keywords).
  intros u. unfold neighbors. simpl. rewrite lookup_empty. set_solver.
Qed.

(** What the loop test achieves. In every state the pool can reach: an
    edge to the target is in the graph only if the event is set (the
    worker that records the edge sets the event in the same uninterrupted
    run); and once the event is set it stays set, no task enters
    [queue.get] any more, and a task that is not suspended inside [get]
    takes no entry from the queue. *)
Lemma signal_at_loop_test start concurrent st0 st :
  seeded lower join fetch start target concurrent keywords = Some st0 →
  rtc step st0 st →
  (∀ u, target ∈ neighbors (_graph st) u → _target_found st = true)
  ∧ (_target_found st = true →
     ∀ i st', _worker lower join url_leb fetch target keywords i st = Some st' →
       _target_found st' = true
       ∧ (∀ j, workers st' !! j = Some InGet → workers st !! j = Some InGet)
       ∧ (workers st !! i ≠ Some InGet → ∃ added, _queue st' = _queue st ++ added)).
Proof.
  intros Hseed Hreach. split.
  - revert st Hreach.
    apply (rtc_ind_r (λ st, ∀ u, target ∈ neighbors (_graph st) u → _target_found st = true)).
    + by apply (seeded_signal start concurrent).
    + intros st st1 _ [i Hstep] IH. by apply (worker_keeps_signal i st st1).
  - intros Hf i st' Hstep. split.
    + by apply (worker_keeps_signal i st st').
    + by apply (worker_after_signal i).
Qed.

End Pool.

(** C5, on the code. The event is tested at the head of the loop only:
    a task that is suspended in [queue.get()] when the event is set takes
    the next entry that arrives and goes on to fetch its page, whatever
    the event says. Two workers on [late_web]: task 0 fetches A while
    task 1 waits in [get] on the empty queue; task 0 enqueues C, records
    the edge to the target, sets the event and stops there (E is neither
    recorded nor enqueued); task 1, resumed with the event set, takes C
    from the queue, fetches it, records its link and enqueues D. *)
Theorem pending_get_dequeues_after_signal :
  (∀ lower join url_leb fetch target keywords i st e q n,
     workers st !! i = Some InGet →
     pq_get url_leb (_queue st) = Some (e, q) →
     _graph st !! e.2 = None → _semaphore st = S n →
     _worker lower join url_leb fetch target keywords i st
     = Some (set_task i (InFetch e.2) (set_semaphore n (set_queue q st))))
  ∧ let resume := _worker Str.lower (λ _ h, h) String.leb late_web "/wiki/T" [] in
    let g0 : Graph.t := {["/wiki/S" := {["/wiki/A"]}]} in
    let g1 : Graph.t := <["/wiki/A" := {["/wiki/C"; "/wiki/T"]}]> g0 in
    let g2 : Graph.t := <["/wiki/C" := {["/wiki/D"]}]> g1 in
    seeded Str.lower (λ _ h, h) late_web "/wiki/S" "/wiki/T" 2 []
      = Some (mkCrawler [(0, "/wiki/A")] g0 false 2 [AtLoop; AtLoop])
    ∧ resume 0 (mkCrawler [(0, "/wiki/A")] g0 false 2 [AtLoop; AtLoop])
      = Some (mkCrawler [] g0 false 1 [InFetch "/wiki/A"; AtLoop])
    ∧ resume 1 (mkCrawler [] g0 false 1 [InFetch "/wiki/A"; AtLoop])
      = Some (mkCrawler [] g0 false 1 [InFetch "/wiki/A"; InGet])
    ∧ resume 0 (mkCrawler [] g0 false 1 [InFetch "/wiki/A"; InGet])
      = Some (mkCrawler [(0, "/wiki/C")] g1 true 2 [AtLoop; InGet])
    ∧ resume 1 (mkCrawler [(0, "/wiki/C")] g1 true 2 [AtLoop; InGet])
      = Some (mkCrawler [] g1 true 1 [AtLoop; InFetch "/wiki/C"])
    ∧ resume 1 (mkCrawler [] g1 true 1 [AtLoop; InFetch "/wiki/C"])
      = Some (mkCrawler [(0, "/wiki/D")] g2 true 2 [AtLoop; AtLoop]).
Proof.
  split.
  - intros lower join url_leb fetch target keywords i st e q n Hi Hget Hnone Hsem.
    unfold _worker. rewrite Hi, Hget. unfold take. simpl.
    assert (Graph.contains (_graph st) e.2 = false) as ->.
    { apply not_true_is_false. rewrite contains_true, Hnone. by intros [? ?]. }
    by rewrite Hsem.
  - vm_compute. done.
Qed.

(** ** [_first] and [__call__] *)

Lemma walk_inv nb s p t :
  walk nb s p t →
  (p = [s] ∧ t = s) ∨ ∃ p' u, p = p' ++ [t] ∧ walk nb s p' u ∧ t ∈ nb u.
Proof. destruct 1; eauto 10. Qed.

Section Crawl.

Variable lower : string → string.
Variable join : string → string → string.
Variable url_leb : string → string → bool.
Variable set_iter : gset string → list string.
Variable fetch : string → response.
Variables (start target : string) (concurrent : nat) (keywords : list string).

Lemma gather_finished sched st :
  forallb is_exited (workers st) = true →
  gather lower join url_leb fetch target keywords sched st = Ok st.
Proof. intros H. destruct sched; simpl; by rewrite H. Qed.

Lemma gather_cons i sched st :
  forallb is_exited (workers st) = false →
  gather lower join url_leb fetch target keywords (i :: sched) st =
  gather lower join url_leb fetch target keywords sched
    (default st (_worker lower join url_leb fetch target keywords i st)).
Proof. intros H. simpl. by rewrite H. Qed.

(** An idle pool stays idle, whichever task is resumed. *)
Lemma idle_step i st :
  idle st → idle (default st (_worker lower join url_leb fetch target keywords i st)).
Proof.
  intros (Hq & Hf & Hne & Hall). unfold _worker.
  destruct (workers st !! i) as [t|] eqn:Hi; [| done].
  rewrite Forall_lookup in Hall. destruct (Hall i t Hi) as [-> | ->].
  - rewrite Hf, Hq. simpl. split_and!; try done.
    + intros Hnil. apply (f_equal length) in Hnil. simpl in Hnil.
      rewrite length_insert in Hnil. by destruct (workers st).
    + apply Forall_insert; [by apply Forall_lookup | by right].
  - rewrite Hq. simpl. split_and!; try done. by apply Forall_lookup.
Qed.

(** [gather] over an idle pool never returns. *)
Lemma idle_never_returns sched : ∀ st,
  idle st → gather lower join url_leb fetch target keywords sched st = OutOfFuel.
Proof.
  induction sched as [|i sched IH]; intros st Hidle.
  - destruct Hidle as (_ & _ & Hne & Hall). simpl.
    destruct (workers st) as [|t ts]; [done |].
    apply Forall_cons in Hall as [[-> | ->] _]; done.
  - rewrite gather_cons.
    + apply IH. by apply idle_step.
    + destruct Hidle as (_ & _ & Hne & Hall).
      destruct (workers st) as [|t ts]; [done |].
      apply Forall_cons in Hall as [[-> | ->] _]; done.
Qed.

(** When the start page has no article link the frontier is empty from
    the beginning, and the call does not return. *)
Lemma no_links_never_returns source sched fuel :
  fetch start = Html source → _get_article_links source = [] → 0 < concurrent →
  __call__ lower join url_leb set_iter fetch start target concurrent keywords sched fuel
  = OutOfFuel.
Proof.
  intros Hfetch Hlinks Hpos. unfold __call__, _first, seeded.
  rewrite Hfetch, Hlinks, process_links_nil. rewrite idle_never_returns; [done |].
  unfold idle. simpl. split_and!; try done.
  - by destruct concurrent; [lia |].
  - apply Forall_replicate. by left.
Qed.

End Crawl.

(** C6, on the code. The start page is HTML without article links and
    the target is another page: the single worker suspends in
    [queue.get()] on the empty queue and nothing wakes it, so [gather],
    and with it the call, returns under no schedule. *)
Theorem exhausted_frontier_never_returns :
  ∀ sched fuel,
    __call__ Str.lower (λ _ h, h) String.leb elements (λ _, Html []) "/wiki/S" "/wiki/T" 1 []
      sched fuel = OutOfFuel
    ∧ _worker Str.lower (λ _ h, h) String.leb (λ _, Html []) "/wiki/T" [] 0
        (mkCrawler [] ∅ false 1 [AtLoop]) = Some (mkCrawler [] ∅ false 1 [InGet])
    ∧ ∀ i, _worker Str.lower (λ _ h, h) String.leb (λ _, Html []) "/wiki/T" [] i
        (mkCrawler [] ∅ false 1 [InGet]) = None.
Proof.
  intros sched fuel. split_and!.
  - apply (no_links_never_returns _ _ _ _ _ _ _ _ _ []); [done | done | lia].
  - reflexivity.
  - intros [|i]; reflexivity.
Qed.

(** [shortest_path] on the graph without entries. *)
Lemma shortest_path_empty set_iter start target fuel :
  (∀ s, set_iter s ≡ₚ elements s) → 0 < fuel →
  ∃ g', shortest_path set_iter start target fuel ∅
        = Ok (if decide (start = target) then [start] else [], g').
Proof.
  intros Hperm Hfuel.
  destruct (shortest_path_run_in ∅ set_iter start target fuel ∅ Hperm)
    as (g' & dist & Hrun & Hst & Hsound & _).
  { intros u. unfold neighbors. by rewrite lookup_empty. }
  { by rewrite size_empty. }
  exists g'. rewrite Hrun. f_equal. f_equal. case_decide as Heq.
  - subst. unfold route. by rewrite Hst.
  - unfold route. destruct (dist !! target) as [l|] eqn:Ht; [| done].
    exfalso. destruct (walk_inv _ _ _ _ (Hsound target (mk_is_Some _ _ Ht)))
      as [[_ ?] | (p' & u & _ & _ & Hedge)]; [congruence |].
    unfold neighbors in Hedge. rewrite lookup_empty in Hedge. set_solver.
Qed.

(** C4, as the claim states it, fails when the start node is the target:
    the start page is not HTML and yet the call returns [[start]]. *)
Lemma start_not_html_same_node :
  (λ _ : string, NotHtml) "/wiki/S" = NotHtml
  ∧ __call__ Str.lower (λ _ h, h) String.leb elements (λ _, NotHtml)
      "/wiki/S" "/wiki/S" 1 [] [] 1
    = Ok ["/wiki/S"]
  ∧ __call__ Str.lower (λ _ h, h) String.leb elements (λ _, NotHtml)
      "/wiki/S" "/wiki/S" 1 [] [] 1
    ≠ Ok [].
Proof. split; [done |]. split; vm_compute; [done | discriminate]. Qed.

(** C4, amended. When the response for the start page is not HTML,
    [_first] returns at once: the graph and the queue are still empty and
    no worker task exists. The call then returns the empty list when the
    start node is not the target, and [[start]] when it is. *)
Theorem start_not_html_result lower join url_leb set_iter fetch start target concurrent
    keywords sched fuel :
  (∀ s, set_iter s ≡ₚ elements s) →
  fetch start = NotHtml →
  0 < fuel →
  _first lower join url_leb fetch start target concurrent keywords sched
    = Ok (mkCrawler [] ∅ false concurrent [])
  ∧ __call__ lower join url_leb set_iter fetch start target concurrent keywords sched fuel
    = Ok (if decide (start = target) then [start] else []).
Proof.
  intros Hperm Hfetch Hfuel.
  assert (_first lower join url_leb fetch start target concurrent keywords sched
          = Ok (mkCrawler [] ∅ false concurrent [])) as Hfirst.
  { unfold _first, seeded. by rewrite Hfetch. }
  split; [done |]. unfold __call__. rewrite Hfirst. simpl.
  destruct (shortest_path_empty set_iter start target fuel Hperm Hfuel) as [g' ->].
  done.
Qed.

Lemma start_not_html_result_witness :
  _first Str.lower (λ _ h, h) String.leb (λ _, NotHtml) "/wiki/S" "/wiki/T" 1 [] [0]
    = Ok (mkCrawler [] ∅ false 1 [])
  ∧ __call__ Str.lower (λ _ h, h) String.leb elements (λ _, NotHtml)
      "/wiki/S" "/wiki/T" 1 [] [0] 1
    = Ok (if decide ("/wiki/S" = "/wiki/T") then ["/wiki/S"] else []).
Proof.
  apply (start_not_html_result Str.lower (λ _ h, h) String.leb elements (λ _, NotHtml)
           "/wiki/S" "/wiki/T" 1 [] [0] 1).
  - intros s. reflexivity.
  - reflexivity.
  - lia.
Defined.

(** C8, on the code. With one worker on [two_links_web]: the worker
    takes B from the queue, fetches it and processes its (empty) list of
    links; B has no entry in the graph afterwards, so that when B is
    taken from the queue a second time the page is fetched again. *)
Theorem page_without_links_is_fetched_again :
  let resume := _worker Str.lower (λ _ h, h) String.leb two_links_web "/wiki/T" [] 0 in
  let g : Graph.t := {["/wiki/S" := {["/wiki/B"]}]} in
  seeded Str.lower (λ _ h, h) two_links_web "/wiki/S" "/wiki/T" 1 []
    = Some (mkCrawler [(0, "/wiki/B"); (0, "/wiki/B")] g false 1 [AtLoop])
  ∧ resume (mkCrawler [(0, "/wiki/B"); (0, "/wiki/B")] g false 1 [AtLoop])
    = Some (mkCrawler [(0, "/wiki/B")] g false 0 [InFetch "/wiki/B"])
  ∧ resume (mkCrawler [(0, "/wiki/B")] g false 0 [InFetch "/wiki/B"])
    = Some (mkCrawler [(0, "/wiki/B")] g false 1 [AtLoop])
  ∧ Graph.contains g "/wiki/B" = false
  ∧ resume (mkCrawler [(0, "/wiki/B")] g false 1 [AtLoop])
    = Some (mkCrawler [] g false 0 [InFetch "/wiki/B"]).
Proof. vm_compute. done. Qed.

(** The same in general: expanding a page without article links leaves
    the page without entry, whereas a page with an article link has an
    entry afterwards. *)
Lemma expansion_entry lower join url_leb fetch target keywords i st current source :
  workers st !! i = Some (InFetch current) →
  fetch current = Html source →
  ∃ st', _worker lower join url_leb fetch target keywords i st = Some st'
    ∧ workers st' = <[i := AtLoop]> (workers st)
    ∧ match _get_article_links source with
      | [] => _graph st' = _graph st
      | _ :: _ => Graph.contains (_graph st') current = true
      end.
Proof.
  intros Hi Hfetch. unfold _worker. rewrite Hi, Hfetch. eexists. split; [done |].
  simpl. split.
  - by rewrite process_links_workers.
  - destruct (_get_article_links source) as [|link links]; [done |].
    apply process_links_marks.
Qed.

(** ** A pool of one worker *)

Section SingleWorker.

Variable lower : string → string.
Variable join : string → string → string.
Variable url_leb : string → string → bool.
Variable fetch : string → response.
Variables (target : string) (keywords : list string).

Notation resume0 := (resume0 lower join url_leb fetch target keywords).

Lemma worker_length i st st' :
  _worker lower join url_leb fetch target keywords i st = Some st' →
  length (workers st') = length (workers st).
Proof.
  unfold _worker, take. intros Hstep.
  repeat case_match; simplify_eq; simpl;
    rewrite ?length_insert, ?process_links_workers; done.
Qed.

Lemma resume0_length st : length (workers (resume0 st)) = length (workers st).
Proof.
  unfold resume0.
  destruct (_worker lower join url_leb fetch target keywords 0 st) eqn:Hstep; [| done].
  by apply (worker_length 0).
Qed.

Lemma resume0_finished st :
  forallb is_exited (workers st) = true → length (workers st) = 1 → resume0 st = st.
Proof.
  intros Hfin Hlen. unfold resume0, _worker.
  destruct (workers st) as [|t [|? ?]]; try done. by destruct t.
Qed.

(** With one task the schedule matters only through the number of times
    it names task 0: once task 0 has been resumed often enough to exit,
    [gather] returns the state it has then. *)
Lemma gather_single sched : ∀ k st,
  length (workers st) = 1 →
  k ≤ length (filter (λ i, i = 0) sched) →
  forallb is_exited (workers (Nat.iter k resume0 st)) = true →
  gather lower join url_leb fetch target keywords sched st = Ok (Nat.iter k resume0 st).
Proof.
  induction sched as [|i sched IH]; intros k st Hlen Hk Hfin.
  - simpl in Hk. assert (k = 0) as -> by lia. simpl in *. by rewrite Hfin.
  - destruct (forallb is_exited (workers st)) eqn:Hst.
    + rewrite gather_finished by done. f_equal.
      clear Hk Hfin. induction k as [|k IHk]; [done |].
      simpl. rewrite <- IHk. by rewrite resume0_finished.
    + rewrite gather_cons by done. destruct (decide (i = 0)) as [->|Hi].
      * rewrite filter_cons_True in Hk by done. simpl in Hk.
        destruct k as [|k]; [simpl in Hfin; congruence |].
        rewrite Nat.iter_succ_r in *.
        apply IH; [by rewrite resume0_length | lia | done].
      * rewrite filter_cons_False in Hk by done.
        assert (_worker lower join url_leb fetch target keywords i st = None) as ->.
        { unfold _worker. rewrite lookup_ge_None_2; [done | lia]. }
        by apply IH.
Qed.

End SingleWorker.

(** ** The end-to-end scenario *)

Section Scenario.

Variable lower : string → string.
Variable join : string → string → string.
Variable url_leb : string → string → bool.
Variable set_iter : gset string → list string.
Hypothesis set_iter_perm : ∀ s, set_iter s ≡ₚ elements s.
Variable fetch : string → response.
Variables (start target : string) (keywords : list string).

(** The pages A and B, the three article links, and the documents. *)
Variables (A B : string) (toA toB toTarget : Tag).
Variables (start_page A_page B_page : list Tag).
Hypothesis fetch_start : fetch start = Html start_page.
Hypothesis fetch_A : fetch A = Html A_page.
Hypothesis fetch_B : fetch B = Html B_page.
Hypothesis links_start : _get_article_links start_page = [toA; toB].
Hypothesis links_A : _get_article_links A_page = [toTarget].
Hypothesis links_B : _get_article_links B_page = [].
Hypothesis join_A : join start (href toA) = A.
Hypothesis join_B : join start (href toB) = B.
Hypothesis join_target : join A (href toTarget) = target.
Hypothesis start_not_target : start ≠ target.
Hypothesis A_not_target : A ≠ target.
Hypothesis B_not_target : B ≠ target.

Notation seeded_graph := (seeded_graph start A B).
Notation final_graph := (final_graph start target A B).

Lemma A_not_start : A ≠ start.
Proof.
  intros Heq. rewrite Heq, fetch_start in fetch_A. injection fetch_A as <-.
  rewrite links_start in links_A. discriminate.
Qed.

Lemma B_not_start : B ≠ start.
Proof.
  intros Heq. rewrite Heq, fetch_start in fetch_B. injection fetch_B as <-.
  rewrite links_start in links_B. discriminate.
Qed.

Lemma A_not_B : A ≠ B.
Proof.
  intros Heq. rewrite Heq, fetch_B in fetch_A. injection fetch_A as <-.
  rewrite links_B in links_A. discriminate.
Qed.

Lemma final_graph_edges u v :
  v ∈ neighbors final_graph u ↔
  (u = start ∧ (v = A ∨ v = B)) ∨ (u = A ∧ v = target).
Proof.
  pose proof A_not_start. unfold final_graph, seeded_graph.
  rewrite !neighbors_add. unfold neighbors. rewrite !lookup_empty. simpl.
  repeat case_decide; subst; set_solver.
Qed.

Lemma final_graph_walk p :
  walk (neighbors final_graph) start p target ↔ p = [start; A; target].
Proof.
  pose proof A_not_start. pose proof B_not_start. split.
  - intros Hp.
    apply walk_inv in Hp as [[_ ?] | (p1 & u1 & -> & Hp & He)]; [done |].
    apply final_graph_edges in He as [[_ [?|?]] | [-> _]]; [done | done |].
    apply walk_inv in Hp as [[_ ?] | (p2 & u2 & -> & Hp & He)]; [done |].
    apply final_graph_edges in He as [[-> _] | [_ ?]]; [| done].
    apply walk_inv in Hp as [[-> _] | (p3 & u3 & -> & Hp & He)]; [done |].
    apply final_graph_edges in He as [[_ [?|?]] | [_ ?]]; done.
  - intros ->. apply (walk_step _ _ [start; A] A).
    + apply (walk_step _ _ [start] start); [apply walk_start |].
      apply final_graph_edges. auto.
    + apply final_graph_edges. auto.
Qed.

Lemma shortest_path_final fuel :
  3 < fuel →
  ∃ g', shortest_path set_iter start target fuel final_graph
        = Ok ([start; A; target], g').
Proof.
  intros Hfuel.
  destruct (shortest_path_run_in (list_to_set [A; B; target]) set_iter start target
              fuel final_graph set_iter_perm)
    as (g' & dist & Hrun & _ & Hsound & Hcomplete & _).
  - intros u v Hv. apply final_graph_edges in Hv. set_solver.
  - rewrite size_list_to_set; [simpl; lia |].
    pose proof A_not_B. repeat constructor; set_solver.
  - exists g'. rewrite Hrun. f_equal. f_equal.
    apply final_graph_walk, Hsound.
    by apply (Hcomplete target [start; A; target]), final_graph_walk.
Qed.


#[local] Arguments Graph.add : simpl never.
#[local] Arguments Graph.contains : simpl never.

Lemma seeded_graph_fresh u : u ≠ start → Graph.contains seeded_graph u = false.
Proof.
  intros Hne. unfold Graph.contains, seeded_graph.
  rewrite !lookup_add, !decide_False, lookup_empty by done.
  apply bool_decide_eq_false. by intros [? ?].
Qed.

Lemma seeded_scenario :
  seeded lower join fetch start target 1 keywords =
  Some (mkCrawler [((prioritize_link lower keywords toA).1, A);
                   ((prioritize_link lower keywords toB).1, B)]
          seeded_graph false 1 [AtLoop]).
Proof.
  unfold seeded. rewrite fetch_start, links_start.
  unfold _process_links, _prioritize_by_keyword. simpl.
  destruct (prioritize_link_spec lower keywords toA) as [HA _].
  destruct (prioritize_link_spec lower keywords toB) as [HB _].
  destruct (prioritize_link lower keywords toA) as [pA hA].
  destruct (prioritize_link lower keywords toB) as [pB hB]. simpl in *. subst hA hB.
  rewrite join_A, join_B. rewrite !decide_False by done. done.
Qed.

Notation resume := (resume0 lower join url_leb fetch target keywords).

Lemma resume_first_get pA pB :
  resume (mkCrawler [(pA, A); (pB, B)] seeded_graph false 1 [AtLoop]) =
  if entry_leb url_leb (pA, A) (pB, B)
  then mkCrawler [(pB, B)] seeded_graph false 0 [InFetch A]
  else mkCrawler [(pA, A)] seeded_graph false 0 [InFetch B].
Proof.
  unfold resume0, _worker. simpl.
  destruct (entry_leb url_leb (pA, A) (pB, B)); unfold take; simpl.
  - by rewrite (seeded_graph_fresh A A_not_start).
  - by rewrite (seeded_graph_fresh B B_not_start).
Qed.

Lemma resume_second_get pA :
  resume (mkCrawler [(pA, A)] seeded_graph false 1 [AtLoop]) =
  mkCrawler [] seeded_graph false 0 [InFetch A].
Proof.
  unfold resume0, _worker, take. simpl.
  by rewrite (seeded_graph_fresh A A_not_start).
Qed.

Lemma resume_fetch_B q :
  resume (mkCrawler q seeded_graph false 0 [InFetch B]) =
  mkCrawler q seeded_graph false 1 [AtLoop].
Proof. unfold resume0, _worker. simpl. by rewrite fetch_B, links_B. Qed.

Lemma resume_fetch_A q :
  resume (mkCrawler q seeded_graph false 0 [InFetch A]) =
  mkCrawler q final_graph true 1 [AtLoop].
Proof.
  unfold resume0, _worker. simpl. rewrite fetch_A, links_A.
  unfold _process_links, _prioritize_by_keyword. simpl.
  destruct (prioritize_link_spec lower keywords toTarget) as [HT _].
  destruct (prioritize_link lower keywords toTarget) as [pT hT]. simpl in *. subst hT.
  rewrite join_target. by rewrite decide_True.
Qed.

Lemma resume_exit q g :
  resume (mkCrawler q g true 1 [AtLoop]) = mkCrawler q g true 1 [Exited].
Proof. reflexivity. Qed.

Lemma resume_exited q g f n :
  resume (mkCrawler q g f n [Exited]) = mkCrawler q g f n [Exited].
Proof. reflexivity. Qed.

Lemma scenario_run pA pB :
  ∃ q, Nat.iter 5 resume (mkCrawler [(pA, A); (pB, B)] seeded_graph false 1 [AtLoop])
       = mkCrawler q final_graph true 1 [Exited].
Proof.
  simpl. rewrite resume_first_get. destruct (entry_leb url_leb (pA, A) (pB, B)).
  - rewrite resume_fetch_A, resume_exit, !resume_exited. eauto.
  - rewrite resume_fetch_B, resume_second_get, resume_fetch_A, resume_exit. eauto.
Qed.

(** C1. One worker; the start page links to A and B, the page of A links
    to the target only, the page of B has no article link. Under every
    schedule that resumes the worker at least five times, and with fuel
    for the four nodes of the graph, the call returns the path
    [[start; A; target]]. *)
Theorem single_worker_scenario sched fuel :
  5 ≤ length (filter (λ i, i = 0) sched) →
  3 < fuel →
  __call__ lower join url_leb set_iter fetch start target 1 keywords sched fuel
  = Ok [start; A; target].
Proof.
  intros Hsched Hfuel. unfold __call__, _first. rewrite seeded_scenario.
  destruct (scenario_run (prioritize_link lower keywords toA).1
              (prioritize_link lower keywords toB).1)
    as [q Hrun].
  rewrite (gather_single lower join url_leb fetch target keywords sched 5);
    [| done | done | by rewrite Hrun].
  rewrite Hrun. simpl.
  destruct (shortest_path_final fuel Hfuel) as [g' ->]. done.
Qed.

End Scenario.

(** ** The scenario on [small_web] *)

Lemma single_worker_scenario_witness :
  __call__ Str.lower (λ _ h, h) String.leb elements small_web "/wiki/S" "/wiki/T" 1 []
    [0; 0; 0; 0; 0] 4
  = Ok ["/wiki/S"; "/wiki/A"; "/wiki/T"].
Proof.
  apply (single_worker_scenario Str.lower (λ _ h, h) String.leb elements (λ s, reflexivity _)
           small_web "/wiki/S" "/wiki/T" [] "/wiki/A" "/wiki/B"
           (mkTag "Page A" "/wiki/A") (mkTag "Page B" "/wiki/B") (mkTag "Target" "/wiki/T")
           [mkTag "Page A" "/wiki/A"; mkTag "Page B" "/wiki/B"]
           [mkTag "Target" "/wiki/T"]
           [mkTag "elsewhere" "http://example.org/"]);
    try reflexivity; try discriminate; simpl; lia.
Defined.

(** * Part IV: further properties of the code *)

(** ** [_flatten] *)






(** ** The graph as a map of sets *)

Lemma lookup_add_edges_eq g current vs :
  add_edges g current vs !! current =
  match vs with
  | [] => g !! current
  | _ :: _ => Some (neighbors g current ∪ list_to_set vs)
  end.
Proof.
  revert g. induction vs as [|v vs IH]; intros g; [done |].
  change (add_edges g current (v :: vs))
    with (add_edges (Graph.add g current v) current vs).
  rewrite IH. destruct vs as [|w vs].
  - rewrite lookup_add, decide_True by done. f_equal. set_solver.
  - rewrite neighbors_add, decide_True by done. f_equal. set_solver.
Qed.

(** X2. Recording edges from a page depends only on the set of their
    targets: the order in which the links are added and their repetition
    do not change the graph; in particular adding an edge twice is adding
    it once. Afterwards the page has an entry that holds the old and the
    new targets, and no other entry has changed. *)
Theorem add_edges_as_set (g : Graph.t) (current : string) (vs ws : list string) :
  (list_to_set vs =@{gset string} list_to_set ws →
   add_edges g current vs = add_edges g current ws)
  ∧ (∀ v, Graph.add (Graph.add g current v) current v = Graph.add g current v)
  ∧ (∀ v, Graph.contains (Graph.add g current v) current = true
          ∧ neighbors (Graph.add g current v) current = neighbors g current ∪ {[v]})
  ∧ (∀ u v, u ≠ current → Graph.add g current v !! u = g !! u).
Proof.
  assert (∀ v, Graph.add (Graph.add g current v) current v = Graph.add g current v) as Hidem.
  { intros v. apply map_eq. intros u. rewrite !lookup_add.
    case_decide; [| done]. rewrite neighbors_add, decide_True by done.
    f_equal. set_solver. }
  split_and!; try done.
  - intros Hset. apply map_eq. intros u. destruct (decide (u = current)) as [->|Hne].
    + rewrite !lookup_add_edges_eq. destruct vs as [|v vs], ws as [|w ws]; try done.
      * exfalso. assert (w ∈ (list_to_set [] : gset string)) by (rewrite Hset; set_solver).
        set_solver.
      * exfalso. assert (v ∈ (list_to_set [] : gset string)) by (rewrite <- Hset; set_solver).
        set_solver.
      * by rewrite Hset.
    + by rewrite !lookup_add_edges_ne.
  - intros v. split.
    + apply contains_true. rewrite lookup_add, decide_True by done. eauto.
    + by rewrite neighbors_add, decide_True.
  - intros u v Hne. by rewrite lookup_add, decide_False.
Qed.

(** ** Resuming a task, case by case *)

Section Resume.

Variable lower : string → string.
Variable join : string → string → string.
Variable url_leb : string → string → bool.
Variable fetch : string → response.
Variables (target : string) (keywords : list string).

Abbreviation step := (step lower join url_leb fetch target keywords).
Abbreviation resumes := (resumes lower join fetch target keywords).

Lemma entry_leb_priority a b :
  if entry_leb url_leb a b then a.1 ≤ b.1 else b.1 ≤ a.1.
Proof.
  unfold entry_leb. destruct (a.1 <? b.1) eqn:Hlt; simpl.
  - apply Nat.ltb_lt in Hlt. lia.
  - apply Nat.ltb_ge in Hlt. destruct (a.1 =? b.1) eqn:Heq; simpl.
    + apply Nat.eqb_eq in Heq. destruct (url_leb a.2 b.2); lia.
    + done.
Qed.

(** [get] delivers an entry of least priority. *)
Lemma pq_get_least q e r :
  pq_get url_leb q = Some (e, r) → Forall (λ x, e.1 ≤ x.1) r.
Proof.
  revert e r. induction q as [|x q IH]; intros e r; simpl; [done |].
  destruct (pq_get url_leb q) as [[m r']|] eqn:Hq.
  - specialize (IH m r' eq_refl). pose proof (pq_get_perm url_leb q m r' Hq) as Hperm.
    pose proof (entry_leb_priority x m) as Hxm.
    destruct (entry_leb url_leb x m); intros [= <- <-].
    + rewrite Hperm. constructor; [done |].
      eapply Forall_impl; [exact IH |]. simpl. intros y Hy. lia.
    + by constructor.
  - intros [= <- <-]. constructor.
Qed.

Lemma take_resumes i e q st :
  (workers st !! i = Some AtLoop ∧ _target_found st = false)
  ∨ workers st !! i = Some InGet →
  pq_get url_leb (_queue st) = Some (e, q) →
  resumes i st (take i e q st).
Proof.
  intros Hi Hget.
  pose proof (pq_get_perm url_leb _ _ _ Hget) as Hperm.
  pose proof (pq_get_least _ _ _ Hget) as Hleast.
  unfold take. simpl. destruct (Graph.contains (_graph st) e.2) eqn:Hc.
  - apply contains_true in Hc. by apply (resumes_skip _ _ _ _ _ _ _ e q).
  - assert (_graph st !! e.2 = None) as Hnone.
    { apply eq_None_not_Some. intros Hsome. apply contains_true in Hsome. congruence. }
    destruct (_semaphore st) as [|n] eqn:Hsem.
    + by apply (resumes_block _ _ _ _ _ _ _ e q).
    + by apply (resumes_fetch _ _ _ _ _ _ _ e q n).
Qed.

(** Every resumption of a task is one of the cases of [resumes]. *)
Lemma worker_resumes i st st' :
  _worker lower join url_leb fetch target keywords i st = Some st' → resumes i st st'.
Proof.
  unfold _worker. intros Hstep.
  destruct (workers st !! i) as [[| |current|current|]|] eqn:Hi; try discriminate.
  - destruct (_target_found st) eqn:Hf.
    + injection Hstep as <-. by constructor.
    + destruct (pq_get url_leb (_queue st)) as [[e q]|] eqn:Hget; injection Hstep as <-.
      * apply take_resumes; auto.
      * apply resumes_wait; [done | done |]. by apply (pq_get_nil_iff url_leb).
  - destruct (pq_get url_leb (_queue st)) as [[e q]|] eqn:Hget; [| discriminate].
    injection Hstep as <-. apply take_resumes; auto.
  - destruct (_semaphore st) as [|n] eqn:Hsem; [discriminate |].
    injection Hstep as <-. by apply (resumes_acquire _ _ _ _ _ _ _ current n).
  - destruct (fetch current) as [|source] eqn:Hfetch; injection Hstep as <-.
    + by apply (resumes_not_html _ _ _ _ _ _ _ current).
    + by apply (resumes_html _ _ _ _ _ _ _ current source).
Qed.

(** X3. A task that takes an entry from the queue gets one of least
    priority value: no entry left in the queue has a smaller priority,
    and the entries left are the others. The task goes back to the loop
    test when the node has an entry in the graph, and on to fetching the
    node when it has none. *)
Theorem worker_takes_least (i : nat) (st : crawler) :
  _queue st ≠ [] →
  (workers st !! i = Some AtLoop ∧ _target_found st = false)
  ∨ workers st !! i = Some InGet →
  ∃ e st',
    _worker lower join url_leb fetch target keywords i st = Some st'
    ∧ _queue st ≡ₚ e :: _queue st'
    ∧ Forall (λ x, e.1 ≤ x.1) (_queue st')
    ∧ ((is_Some (_graph st !! e.2) ∧ workers st' !! i = Some AtLoop)
       ∨ (_graph st !! e.2 = None
          ∧ ∃ t, workers st' !! i = Some t ∧ pending t = Some e.2)).
Proof.
  intros Hq Hi.
  assert (i < length (workers st)) as Hlen.
  { apply lookup_lt_is_Some. destruct Hi as [[-> _] | ->]; eauto. }
  destruct (pq_get url_leb (_queue st)) as [[e q]|] eqn:Hget.
  2:{ by apply pq_get_nil_iff in Hget. }
  exists e, (take i e q st). split.
  { unfold _worker. destruct Hi as [[-> ->] | ->]; by rewrite Hget. }
  pose proof (pq_get_perm url_leb _ _ _ Hget) as Hperm.
  pose proof (pq_get_least _ _ _ Hget) as Hleast.
  unfold take. simpl. destruct (Graph.contains (_graph st) e.2) eqn:Hc; simpl.
  - split_and!; [done | done |]. left. split; [by apply contains_true |].
    by apply list_lookup_insert_eq.
  - assert (_graph st !! e.2 = None) as Hnone.
    { apply eq_None_not_Some. intros Hsome. apply contains_true in Hsome. congruence. }
    destruct (_semaphore st); simpl; (split_and!; [done | done |]); right;
      (split; [done |]); eexists; (split; [by apply list_lookup_insert_eq | done]).
Qed.

End Resume.

Lemma worker_takes_least_witness :
  ∃ e st',
    _worker Str.lower (λ _ h, h) String.leb small_web "/wiki/T" [] 0
      (mkCrawler [(1, "/wiki/B"); (0, "/wiki/A")] ∅ false 1 [AtLoop]) = Some st'
    ∧ [(1, "/wiki/B"); (0, "/wiki/A")] ≡ₚ e :: _queue st'
    ∧ Forall (λ x, e.1 ≤ x.1) (_queue st')
    ∧ ((is_Some ((∅ : Graph.t) !! e.2) ∧ workers st' !! 0 = Some AtLoop)
       ∨ ((∅ : Graph.t) !! e.2 = None
          ∧ ∃ t, workers st' !! 0 = Some t ∧ pending t = Some e.2)).
Proof.
  apply (worker_takes_least Str.lower (λ _ h, h) String.leb small_web "/wiki/T" [] 0
           (mkCrawler [(1, "/wiki/B"); (0, "/wiki/A")] ∅ false 1 [AtLoop])).
  - discriminate.
  - left. split; reflexivity.
Defined.

(** ** What [_process_links] adds *)

Section ProcessLinksAdds.

Variable lower : string → string.
Variable join : string → string → string.
Variables (target : string) (keywords : list string).

Abbreviation process := (_process_links lower join target keywords).

Lemma resolved_link links current e :
  e ∈ resolve join current (_prioritize_by_keyword lower links (Some keywords)) →
  ∃ link, link ∈ links ∧ e.2 = join current (href link).
Proof.
  unfold resolve, _prioritize_by_keyword. simpl.
  intros (e' & -> & (link & -> & Hlink)%list_elem_of_fmap)%list_elem_of_fmap.
  exists link. split; [done |]. simpl.
  by destruct (prioritize_link_spec lower keywords link) as [-> _].
Qed.

Lemma process_links_semaphore links current st :
  _semaphore (process links current st) = _semaphore st.
Proof.
  destruct (process_links_closed lower join target keywords links current st)
    as (pre & [|hit post] & _ & _ & Hpost).
  - by rewrite Hpost.
  - destruct Hpost as [_ ->]. done.
Qed.

(** The graph only grows, and only at the page that is processed. *)
Lemma process_links_graph links current st :
  (∀ u, neighbors (_graph st) u ⊆ neighbors (_graph (process links current st)) u)
  ∧ (∀ u, is_Some (_graph st !! u) → is_Some (_graph (process links current st) !! u))
  ∧ (∀ u, is_Some (_graph (process links current st) !! u) →
          is_Some (_graph st !! u) ∨ u = current)
  ∧ (∀ u v, v ∈ neighbors (_graph (process links current st)) u →
            v ∈ neighbors (_graph st) u
            ∨ (u = current ∧ ∃ link, link ∈ links ∧ v = join current (href link))).
Proof.
  destruct (process_links_closed lower join target keywords links current st)
    as (pre & post & Hsplit & _ & Hpost).
  assert (∃ vs, _graph (process links current st) = add_edges (_graph st) current vs
                ∧ ∀ v, v ∈ vs → ∃ link, link ∈ links ∧ v = join current (href link))
    as (vs & -> & Hvs).
  { destruct post as [|hit post].
    - exists pre.*2. rewrite Hpost. split; [done |].
      intros v (e & -> & He)%list_elem_of_fmap.
      apply resolved_link. rewrite Hsplit. apply elem_of_app. by left.
    - destruct Hpost as [Hhit ->]. exists (pre.*2 ++ [target]). split; [done |].
      intros v [(e & -> & He)%list_elem_of_fmap | ->%list_elem_of_singleton]%elem_of_app.
      + apply resolved_link. rewrite Hsplit. apply elem_of_app. by left.
      + rewrite <- Hhit. apply resolved_link. rewrite Hsplit.
        apply elem_of_app. right. by left. }
  split_and!.
  - intros u. rewrite neighbors_add_edges. case_decide; subst; set_solver.
  - intros u Hu. destruct (decide (u = current)) as [->|Hne].
    + rewrite lookup_add_edges_eq. destruct vs; eauto.
    + by rewrite lookup_add_edges_ne.
  - intros u Hu. destruct (decide (u = current)) as [->|Hne]; [by right |].
    left. by rewrite lookup_add_edges_ne in Hu.
  - intros u v. rewrite neighbors_add_edges. case_decide; [| by left]. subst u.
    intros [Hv | Hv%elem_of_list_to_set]%elem_of_union; [by left |].
    right. split; [done |]. by apply Hvs.
Qed.

(** What is enqueued has just been recorded as a neighbour of the page,
    and so has the target when the event gets set. *)
Lemma process_links_new links current st :
  (∀ e, e ∈ _queue (process links current st) →
        e ∈ _queue st ∨ e.2 ∈ neighbors (_graph (process links current st)) current)
  ∧ (_target_found (process links current st) = true →
     _target_found st = true
     ∨ target ∈ neighbors (_graph (process links current st)) current).
Proof.
  destruct (process_links_closed lower join target keywords links current st)
    as (pre & [|hit post] & _ & _ & Hpost).
  - rewrite Hpost. simpl. split; [| by left].
    intros e [He | He]%elem_of_app; [by left |]. right.
    rewrite neighbors_add_edges, decide_True by done.
    apply elem_of_union. right. apply elem_of_list_to_set, list_elem_of_fmap. eauto.
  - destruct Hpost as [_ ->]. simpl. split.
    + intros e [He | He]%elem_of_app; [by left |]. right.
      rewrite neighbors_add_edges, decide_True by done.
      apply elem_of_union. right. apply elem_of_list_to_set, elem_of_app. left.
      apply list_elem_of_fmap. eauto.
    + intros _. right. rewrite neighbors_add_edges, decide_True by done.
      apply elem_of_union. right. apply elem_of_list_to_set, elem_of_app. right.
      by apply list_elem_of_singleton.
Qed.

Lemma process_links_queue_target links current st :
  Forall (λ e, e.2 ≠ target) (_queue st) →
  Forall (λ e, e.2 ≠ target) (_queue (process links current st)).
Proof.
  intros Hq.
  destruct (process_links_closed lower join target keywords links current st)
    as (pre & [|hit post] & _ & Hpre & Hpost).
  - rewrite Hpost. simpl. by apply Forall_app.
  - destruct Hpost as [_ ->]. simpl. by apply Forall_app.
Qed.

End ProcessLinksAdds.

(** ** Counting the tasks that fetch *)

Lemma fetching_cons t ts :
  fetching (t :: ts) = (if is_fetching t then 1 else 0) + fetching ts.
Proof.
  unfold fetching. destruct (is_fetching t) eqn:Ht.
  - by rewrite filter_cons_True.
  - rewrite filter_cons_False; [done |]. by rewrite Ht.
Qed.

Lemma fetching_insert ts i t t0 :
  ts !! i = Some t0 →
  fetching (<[i := t]> ts) + (if is_fetching t0 then 1 else 0)
  = fetching ts + (if is_fetching t then 1 else 0).
Proof.
  revert i. induction ts as [|x ts IH]; intros [|i] Hi; simpl in *; try done.
  - injection Hi as ->. rewrite !fetching_cons. lia.
  - rewrite !fetching_cons. specialize (IH i Hi). lia.
Qed.

Lemma fetching_lt ts i t0 :
  ts !! i = Some t0 → is_fetching t0 = false → fetching ts < length ts.
Proof.
  revert i. induction ts as [|x ts IH]; intros [|i] Hi Ht; simpl in *; try done.
  - injection Hi as ->. rewrite fetching_cons, Ht.
    pose proof (length_filter (λ t, is_fetching t = true) ts). unfold fetching. lia.
  - rewrite fetching_cons. specialize (IH i Hi Ht). destruct (is_fetching x); lia.
Qed.

Lemma fetching_replicate n : fetching (replicate n AtLoop) = 0.
Proof. induction n as [|n IH]; [done |]. simpl. by rewrite fetching_cons, IH. Qed.

(** ** Invariants of the crawl *)

Section Invariants.

Variable lower : string → string.
Variable join : string → string → string.
Variable url_leb : string → string → bool.
Variable fetch : string → response.
Variables (start target : string) (concurrent : nat) (keywords : list string).

Abbreviation step' := (step lower join url_leb fetch target keywords).
Abbreviation resumes' := (resumes lower join fetch target keywords).
Abbreviation seeded' := (seeded lower join fetch start target concurrent keywords).
Abbreviation process := (_process_links lower join target keywords).

(** A property that holds when the workers are created and that every
    resumption keeps holds in every state the pool reaches. *)
Lemma reachable_inv (P : crawler → Prop) st0 st :
  P st0 → (∀ i s s', P s → resumes' i s s' → P s') → rtc step' st0 st → P st.
Proof.
  intros H0 Hkeep Hreach. revert st Hreach. apply (rtc_ind_r P); [done |].
  intros s s' _ [i Hstep] Hs. apply (Hkeep i s s' Hs).
  by apply (worker_resumes lower join url_leb).
Qed.

Lemma seeded_fields st0 :
  seeded' = Some st0 →
  ∃ source,
    fetch start = Html source
    ∧ st0 = set_workers (replicate concurrent AtLoop)
              (process (_get_article_links source) start (init concurrent)).
Proof.
  unfold seeded. destruct (fetch start) as [|source]; [discriminate |].
  intros [= <-]. by exists source.
Qed.

(** *** The semaphore *)

(** The free permits and the tasks that fetch add up to [concurrent],
    there are [concurrent] tasks, and none waits for a permit. *)
Definition permits_inv (st : crawler) : Prop :=
  _semaphore st + fetching (workers st) = concurrent
  ∧ length (workers st) = concurrent
  ∧ Forall (λ t, ∀ current, t ≠ InAcquire current) (workers st).

Lemma permits_seeded st0 : seeded' = Some st0 → permits_inv st0.
Proof.
  intros (source & _ & ->)%seeded_fields. unfold permits_inv. simpl.
  rewrite process_links_semaphore, fetching_replicate, length_replicate. simpl.
  split_and!; [lia | done |]. apply Forall_replicate. done.
Qed.

Lemma permits_insert i t t0 st st' :
  workers st !! i = Some t0 →
  workers st' = <[i := t]> (workers st) →
  (∀ current, t ≠ InAcquire current) →
  _semaphore st' + (if is_fetching t then 1 else 0)
  = _semaphore st + (if is_fetching t0 then 1 else 0) →
  permits_inv st → permits_inv st'.
Proof.
  intros Hi Hw Ht Hsem (Hsum & Hlen & Hall). unfold permits_inv. rewrite Hw.
  pose proof (fetching_insert (workers st) i t t0 Hi).
  split_and!; [lia | by rewrite length_insert | by apply Forall_insert].
Qed.

Lemma permits_keep i st st' : permits_inv st → resumes' i st st' → permits_inv st'.
Proof.
  intros Hinv Hres. pose proof Hinv as (Hsum & Hlen & Hall).
  destruct Hres as [Hi Hf | Hi Hf Hq | e q Hi Hperm Hleast He | e q n Hi Hperm Hleast He Hsem
                   | e q Hi Hperm Hleast He Hsem | current n Hi Hsem
                   | current Hi Hfetch | current source Hi Hfetch].
  - by apply (permits_insert i Exited AtLoop st).
  - by apply (permits_insert i InGet AtLoop st).
  - destruct Hi as [[Hi _] | Hi].
    + by apply (permits_insert i AtLoop AtLoop st).
    + by apply (permits_insert i AtLoop InGet st).
  - destruct Hi as [[Hi _] | Hi].
    + apply (permits_insert i (InFetch e.2) AtLoop st); simpl; try done; lia.
    + apply (permits_insert i (InFetch e.2) InGet st); simpl; try done; lia.
  - exfalso. assert (∃ t0, workers st !! i = Some t0 ∧ is_fetching t0 = false)
      as (t0 & Ht0 & Hnf) by (destruct Hi as [[Hi _] | Hi]; eauto).
    pose proof (fetching_lt _ _ _ Ht0 Hnf). lia.
  - exfalso. rewrite Forall_lookup in Hall. by apply (Hall i _ Hi current).
  - apply (permits_insert i AtLoop (InFetch current) st); simpl; try done; lia.
  - apply (permits_insert i AtLoop (InFetch current) st); simpl; try done.
    + by rewrite process_links_workers.
    + rewrite process_links_semaphore. simpl. lia.
Qed.

(** X4. In every state of the crawl the tasks that hold the semaphore
    are at most [concurrent], each of them fetching one page; together
    with the free permits they are exactly [concurrent]; and as there are
    only [concurrent] worker tasks, none of them ever waits for the
    semaphore. *)
Theorem fetches_bounded (st0 st : crawler) :
  seeded' = Some st0 →
  rtc step' st0 st →
  fetching (workers st) ≤ concurrent
  ∧ _semaphore st + fetching (workers st) = concurrent
  ∧ ∀ i current, workers st !! i ≠ Some (InAcquire current).
Proof.
  intros Hseed Hreach.
  assert (permits_inv st) as (Hsum & Hlen & Hall).
  { apply (reachable_inv permits_inv st0); [by apply permits_seeded | | done].
    intros i s s'. apply permits_keep. }
  split_and!; [lia | done |].
  intros i current Hi. rewrite Forall_lookup in Hall. by apply (Hall i _ Hi current).
Qed.

(** *** The target is never fetched by a worker *)

Definition avoids_target (st : crawler) : Prop :=
  Forall (λ e, e.2 ≠ target) (_queue st)
  ∧ Forall (λ t, pending t ≠ Some target) (workers st).

Lemma avoids_seeded st0 : seeded' = Some st0 → avoids_target st0.
Proof.
  intros (source & _ & ->)%seeded_fields. split; simpl.
  - by apply process_links_queue_target.
  - by apply Forall_replicate.
Qed.

Lemma avoids_keep i st st' : avoids_target st → resumes' i st st' → avoids_target st'.
Proof.
  intros [Hq Hw] Hres.
  assert (∀ e q, _queue st ≡ₚ e :: q →
                 e.2 ≠ target ∧ Forall (λ e, e.2 ≠ target) q) as Htake.
  { intros e q Hperm. rewrite Hperm in Hq. by apply Forall_cons in Hq. }
  destruct Hres as [Hi Hf | Hi Hf Hq0 | e q Hi Hperm Hleast He | e q n Hi Hperm Hleast He Hsem
                   | e q Hi Hperm Hleast He Hsem | current n Hi Hsem
                   | current Hi Hfetch | current source Hi Hfetch];
    split; simpl; try done; try (by apply Forall_insert);
    try (by apply (Htake e q)).
  - apply Forall_insert; [done |]. simpl. intros [=]. by apply (Htake e q).
  - apply Forall_insert; [done |]. simpl. intros [=]. by apply (Htake e q).
  - apply Forall_insert; [done |]. simpl. rewrite Forall_lookup in Hw.
    apply (Hw i _ Hi).
  - by apply process_links_queue_target.
  - rewrite process_links_workers. by apply Forall_insert.
Qed.

(** X5. The target is never put on the queue, so no worker ever fetches
    the page of the target or waits to fetch it: in every state of the
    crawl no queue entry and no fetch in progress is for the target. *)
Theorem target_never_fetched (st0 st : crawler) :
  seeded' = Some st0 →
  rtc step' st0 st →
  (∀ e, e ∈ _queue st → e.2 ≠ target)
  ∧ (∀ i, workers st !! i ≠ Some (InFetch target)
          ∧ workers st !! i ≠ Some (InAcquire target)).
Proof.
  intros Hseed Hreach.
  assert (avoids_target st) as [Hq Hw].
  { apply (reachable_inv avoids_target st0); [by apply avoids_seeded | | done].
    intros i s s'. apply avoids_keep. }
  rewrite Forall_forall in Hq. rewrite Forall_lookup in Hw. split; [done |].
  intros i. split; intros Hi; by apply (Hw i _ Hi).
Qed.

(** *** The graph only grows *)

Lemma grows_keep i st st' :
  resumes' i st st' →
  (∀ u, neighbors (_graph st) u ⊆ neighbors (_graph st') u)
  ∧ (∀ u, is_Some (_graph st !! u) → is_Some (_graph st' !! u))
  ∧ (_target_found st = true → _target_found st' = true).
Proof.
  intros Hres.
  destruct Hres as [Hi Hf | Hi Hf Hq0 | e q Hi Hperm Hleast He | e q n Hi Hperm Hleast He Hsem
                   | e q Hi Hperm Hleast He Hsem | current n Hi Hsem
                   | current Hi Hfetch | current source Hi Hfetch];
    simpl; try done.
  destruct (process_links_graph lower join target keywords (_get_article_links source) current
              (set_semaphore (S (_semaphore st)) st)) as (Hsub & Hkeep & _).
  split_and!; [done | done |]. intros Hf. by apply process_links_target_found.
Qed.

(** X6. Over a crawl nothing is taken back: from a state to any later
    state every recorded edge is still recorded, every entry of the graph
    is still there, and the event, once set, is still set. *)
Theorem graph_only_grows (st st' : crawler) :
  rtc step' st st' →
  (∀ u, neighbors (_graph st) u ⊆ neighbors (_graph st') u)
  ∧ (∀ u, is_Some (_graph st !! u) → is_Some (_graph st' !! u))
  ∧ (_target_found st = true → _target_found st' = true).
Proof.
  intros Hreach. revert st' Hreach.
  apply (rtc_ind_r (λ st',
    (∀ u, neighbors (_graph st) u ⊆ neighbors (_graph st') u)
    ∧ (∀ u, is_Some (_graph st !! u) → is_Some (_graph st' !! u))
    ∧ (_target_found st = true → _target_found st' = true))); [done |].
  intros s s' _ [i Hstep] (H1 & H2 & H3).
  destruct (grows_keep i s s') as (K1 & K2 & K3).
  { by apply (worker_resumes lower join url_leb). }
  split_and!.
  - intros u. etrans; [apply H1 | apply K1].
  - auto.
  - auto.
Qed.

(** *** Every recorded edge is a link of the web *)

Lemma article_link source link :
  link ∈ _get_article_links source →
  link ∈ source ∧ Str.startswith (href link) "/wiki/" = true.
Proof.
  unfold _get_article_links. intros [? ?]%list_elem_of_filter. done.
Qed.

Definition sound_inv (st : crawler) : Prop :=
  ∀ u v, v ∈ neighbors (_graph st) u → links_to join fetch u v.

Lemma sound_process source current st :
  fetch current = Html source → sound_inv st →
  sound_inv (process (_get_article_links source) current st).
Proof.
  intros Hfetch Hinv u v Hv.
  destruct (process_links_graph lower join target keywords (_get_article_links source) current st)
    as (_ & _ & _ & Hedges).
  destruct (Hedges u v Hv) as [Hold | (-> & link & Hlink & ->)]; [by apply Hinv |].
  apply article_link in Hlink as [Hin Hwiki]. by exists source, link.
Qed.

Lemma sound_seeded st0 : seeded' = Some st0 → sound_inv st0.
Proof.
  intros (source & Hfetch & ->)%seeded_fields. simpl.
  apply (sound_process source start (init concurrent) Hfetch).
  intros u v. unfold neighbors. simpl. rewrite lookup_empty. set_solver.
Qed.

Lemma sound_keep i st st' : sound_inv st → resumes' i st st' → sound_inv st'.
Proof.
  intros Hinv Hres.
  destruct Hres as [Hi Hf | Hi Hf Hq0 | e q Hi Hperm Hleast He | e q n Hi Hperm Hleast He Hsem
                   | e q Hi Hperm Hleast He Hsem | current n Hi Hsem
                   | current Hi Hfetch | current source Hi Hfetch];
    try done.
  unfold sound_inv. simpl.
  by apply (sound_process source current (set_semaphore (S (_semaphore st)) st)).
Qed.

(** X7. The graph records only links that the web has: in every state of
    the crawl, an edge from [u] to [v] means that the page of [u] was
    answered as HTML and holds an anchor whose href starts with [/wiki/]
    and resolves to [v]. Pages that are not HTML contribute no edge. *)
Theorem edges_are_links (st0 st : crawler) :
  seeded' = Some st0 →
  rtc step' st0 st →
  ∀ u v, v ∈ neighbors (_graph st) u → links_to join fetch u v.
Proof.
  intros Hseed Hreach.
  apply (reachable_inv sound_inv st0); [by apply sound_seeded | | done].
  intros i s s'. apply sound_keep.
Qed.

(** *** Everything recorded is reachable from the start node *)

Lemma walk_mono (nb nb' : string → gset string) s p t :
  (∀ u, nb u ⊆ nb' u) → walk nb s p t → walk nb' s p t.
Proof.
  intros Hsub. induction 1 as [|p u v Hwalk IH Hedge]; [apply walk_start |].
  apply walk_step with u; [done |]. by apply Hsub.
Qed.

Lemma reach_mono (g g' : Graph.t) k :
  (∀ u, neighbors g u ⊆ neighbors g' u) → reach g start k → reach g' start k.
Proof. intros Hsub [p Hp]. exists p. by apply (walk_mono (neighbors g)). Qed.

Lemma reach_edge (g : Graph.t) u v :
  reach g start u → v ∈ neighbors g u → reach g start v.
Proof. intros [p Hp] Hv. exists (p ++ [v]). by apply walk_step with u. Qed.

(** Every node with an entry, every queued node, every node being
    fetched can be reached from the start node along recorded edges, and
    so can the target once the event is set. *)
Definition reach_inv (st : crawler) : Prop :=
  (∀ k, is_Some (_graph st !! k) → reach (_graph st) start k)
  ∧ Forall (λ e, reach (_graph st) start e.2) (_queue st)
  ∧ Forall (λ t, ∀ c, pending t = Some c → reach (_graph st) start c) (workers st)
  ∧ (_target_found st = true → reach (_graph st) start target).

Lemma reach_process links current st ts :
  reach (_graph st) start current →
  (∀ k, is_Some (_graph st !! k) → reach (_graph st) start k) →
  Forall (λ e, reach (_graph st) start e.2) (_queue st) →
  Forall (λ t, ∀ c, pending t = Some c → reach (_graph st) start c) ts →
  (_target_found st = true → reach (_graph st) start target) →
  (∀ k, is_Some (_graph (process links current st) !! k) →
        reach (_graph (process links current st)) start k)
  ∧ Forall (λ e, reach (_graph (process links current st)) start e.2)
      (_queue (process links current st))
  ∧ Forall (λ t, ∀ c, pending t = Some c →
                      reach (_graph (process links current st)) start c) ts
  ∧ (_target_found (process links current st) = true →
     reach (_graph (process links current st)) start target).
Proof.
  intros Hcur Hent Hq Hw Hf.
  destruct (process_links_graph lower join target keywords links current st)
    as (Hsub & _ & Honly & _).
  destruct (process_links_new lower join target keywords links current st) as [Hnewq Hnewf].
  pose proof (reach_mono _ _ current Hsub Hcur) as Hcur'.
  split_and!.
  - intros k Hk. destruct (Honly k Hk) as [Hold | ->]; [| done].
    by apply (reach_mono (_graph st)), Hent.
  - apply Forall_forall. intros e He. destruct (Hnewq e He) as [Hold | Hnew].
    + apply (reach_mono (_graph st)); [done |]. rewrite Forall_forall in Hq. by apply Hq.
    + by apply (reach_edge _ current).
  - eapply Forall_impl; [exact Hw |]. simpl. intros t Ht c Hc.
    by apply (reach_mono (_graph st)), Ht.
  - intros Hset. destruct (Hnewf Hset) as [Hold | Hnew].
    + by apply (reach_mono (_graph st)), Hf.
    + by apply (reach_edge _ current).
Qed.

Lemma reach_seeded st0 : seeded' = Some st0 → reach_inv st0.
Proof.
  intros (source & Hfetch & ->)%seeded_fields. unfold reach_inv. simpl.
  apply (reach_process (_get_article_links source) start (init concurrent)
           (replicate concurrent AtLoop)); simpl.
  - exists [start]. apply walk_start.
  - intros k. rewrite lookup_empty. by intros [? ?].
  - constructor.
  - by apply Forall_replicate.
  - done.
Qed.

Lemma reach_keep i st st' : reach_inv st → resumes' i st st' → reach_inv st'.
Proof.
  intros (Hent & Hq & Hw & Hf) Hres.
  assert (∀ e q, _queue st ≡ₚ e :: q →
                 reach (_graph st) start e.2
                 ∧ Forall (λ e, reach (_graph st) start e.2) q) as Htake.
  { intros e q Hperm. rewrite Hperm in Hq. by apply Forall_cons in Hq. }
  destruct Hres as [Hi Hf0 | Hi Hf0 Hq0 | e q Hi Hperm Hleast He | e q n Hi Hperm Hleast He Hsem
                   | e q Hi Hperm Hleast He Hsem | current n Hi Hsem
                   | current Hi Hfetch | current source Hi Hfetch];
    unfold reach_inv; simpl.
  - split_and!; try done. by apply Forall_insert.
  - split_and!; try done. by apply Forall_insert.
  - split_and!; try done; [by apply (Htake e q) | by apply Forall_insert].
  - split_and!; try done; [by apply (Htake e q) |].
    apply Forall_insert; [done |]. simpl. intros c [= <-]. by apply (Htake e q).
  - split_and!; try done; [by apply (Htake e q) |].
    apply Forall_insert; [done |]. simpl. intros c [= <-]. by apply (Htake e q).
  - split_and!; try done. apply Forall_insert; [done |]. simpl. intros c [= <-].
    rewrite Forall_lookup in Hw. by apply (Hw i _ Hi).
  - split_and!; try done. by apply Forall_insert.
  - assert (reach (_graph st) start current) as Hcur.
    { rewrite Forall_lookup in Hw. by apply (Hw i _ Hi). }
    destruct (reach_process (_get_article_links source) current
                (set_semaphore (S (_semaphore st)) st) (workers st))
      as (H1 & H2 & H3 & H4); try done.
    rewrite process_links_workers. simpl.
    split_and!; try done. by apply Forall_insert.
Qed.

(** *** A worker returns only when the event is set *)

Definition exit_inv (st : crawler) : Prop :=
  Exited ∈ workers st → _target_found st = true.

Lemma exit_insert (ts : list task) i t :
  t ≠ Exited → Exited ∈ <[i := t]> ts → Exited ∈ ts.
Proof.
  intros Ht (j & Hj)%list_elem_of_lookup_1.
  apply list_lookup_insert_Some in Hj as [(-> & Heq & _) | [_ Hj]]; [congruence |].
  by eapply list_elem_of_lookup_2.
Qed.

Lemma exit_keep i st st' : exit_inv st → resumes' i st st' → exit_inv st'.
Proof.
  intros Hinv Hres. pose proof (grows_keep i st st' Hres) as (_ & _ & Hmono).
  destruct Hres as [Hi Hf0 | Hi Hf0 Hq0 | e q Hi Hperm Hleast He | e q n Hi Hperm Hleast He Hsem
                   | e q Hi Hperm Hleast He Hsem | current n Hi Hsem
                   | current Hi Hfetch | current source Hi Hfetch];
    unfold exit_inv; simpl; try done;
    try (intros Hex%exit_insert; [by apply Hmono, Hinv | done]).
  rewrite process_links_workers. simpl.
  intros Hex%exit_insert; [| done]. by apply Hmono, Hinv.
Qed.

Lemma exit_seeded st0 : seeded' = Some st0 → exit_inv st0.
Proof.
  intros (source & Hfetch & ->)%seeded_fields. unfold exit_inv. simpl.
  intros [? _]%elem_of_replicate. done.
Qed.

(** X8. In every state of the crawl, whatever the crawler holds is
    connected to the start node by recorded edges: every node with an
    entry in the graph, every node on the queue and every node being
    fetched can be reached from the start node; when the event is set the
    target can be reached; and a worker has returned only if the event is
    set. *)
Theorem recorded_is_reachable (st0 st : crawler) :
  seeded' = Some st0 →
  rtc step' st0 st →
  (∀ k, is_Some (_graph st !! k) → reach (_graph st) start k)
  ∧ (∀ e, e ∈ _queue st → reach (_graph st) start e.2)
  ∧ (∀ i c, workers st !! i = Some (InFetch c) → reach (_graph st) start c)
  ∧ (_target_found st = true → reach (_graph st) start target)
  ∧ (Exited ∈ workers st → _target_found st = true).
Proof.
  intros Hseed Hreach.
  assert (reach_inv st) as (Hent & Hq & Hw & Hf).
  { apply (reachable_inv reach_inv st0); [by apply reach_seeded | | done].
    intros i s s'. apply reach_keep. }
  assert (exit_inv st) as Hex.
  { apply (reachable_inv exit_inv st0); [by apply exit_seeded | | done].
    intros i s s'. apply exit_keep. }
  split_and!; try done.
  - by apply Forall_forall.
  - intros i c Hi. rewrite Forall_lookup in Hw. by apply (Hw i _ Hi).
Qed.

End Invariants.

(** ** Paths, again *)

Lemma walk_chained nb s p t :
  walk nb s p t → chained (λ u v, v ∈ nb u) p.
Proof.
  induction 1 as [|p u v Hwalk IH Hedge]; intros i a b Ha Hb.
  - destruct i; simpl in *; done.
  - destruct (decide (S i < length p)) as [Hlt | Hge].
    + rewrite lookup_app_l in Ha by lia. rewrite lookup_app_l in Hb by lia.
      by apply (IH i).
    + apply lookup_snoc_Some in Hb as [[Hlt _] | [Hlen <-]]; [lia |].
      rewrite lookup_app_l in Ha by lia.
      destruct (walk_ends _ _ _ _ Hwalk) as [_ Hlast].
      rewrite last_lookup in Hlast. rewrite <- Hlen in Hlast. simpl in Hlast.
      by simplify_eq.
Qed.

Lemma chained_impl (R R' : string → string → Prop) p :
  (∀ u v, R u v → R' u v) → chained R p → chained R' p.
Proof. intros HR Hp i u v Hu Hv. by apply HR, (Hp i). Qed.

(** A walk passes through each of its nodes: an initial part of it is a
    walk to that node. *)
Lemma walk_through nb s p t x :
  walk nb s p t → x ∈ p → ∃ p1, walk nb s p1 x ∧ length p1 ≤ length p.
Proof.
  induction 1 as [|p u v Hwalk IH Hedge].
  - intros Hx%list_elem_of_singleton. subst x.
    exists [s]. split; [apply walk_start | done].
  - intros [Hx | Hx%list_elem_of_singleton]%elem_of_app.
    + destruct (IH Hx) as (p1 & Hp1 & Hlen). exists p1. split; [done |].
      rewrite length_app. lia.
    + subst x. exists (p ++ [v]). split; [by apply walk_step with u | done].
Qed.

(** A walk that no walk to the same node is shorter than visits no node
    twice. *)
Lemma shortest_walk_NoDup nb s p t :
  walk nb s p t →
  (∀ p', walk nb s p' t → length p ≤ length p') →
  NoDup p.
Proof.
  induction 1 as [|p u v Hwalk IH Hedge]; intros Hmin.
  - apply NoDup_singleton.
  - apply NoDup_app. split_and!.
    + apply IH. intros p' Hp'.
      specialize (Hmin (p' ++ [v]) (walk_step _ _ _ _ _ Hp' Hedge)).
      rewrite !length_app in Hmin. simpl in Hmin. lia.
    + intros x Hx Hv%list_elem_of_singleton. subst x.
      destruct (walk_through _ _ _ _ v Hwalk Hx) as (p1 & Hp1 & Hlen).
      specialize (Hmin p1 Hp1). rewrite length_app in Hmin. simpl in Hmin. lia.
    + apply NoDup_singleton.
Qed.

(** ** Fuel *)

Lemma bfs_loop_more_fuel set_iter fuel : ∀ fuel' g dist q r,
  bfs_loop set_iter fuel g dist q = Ok r → fuel ≤ fuel' →
  bfs_loop set_iter fuel' g dist q = Ok r.
Proof.
  induction fuel as [|fuel IH]; intros fuel' g dist [|u q] r Hrun Hle.
  - by destruct fuel'.
  - discriminate.
  - by destruct fuel'.
  - destruct fuel' as [|fuel']; [lia |]. simpl in *.
    destruct (Graph.getitem g u) as [nexts g1].
    destruct (visit (set_iter nexts) u dist q) as [[dist1 q1]| |]; try discriminate.
    simpl in *. apply IH; [done | lia].
Qed.

(** More fuel does not change what [shortest_path] returns. *)
Lemma shortest_path_more_fuel set_iter start target fuel fuel' g r :
  shortest_path set_iter start target fuel g = Ok r → fuel ≤ fuel' →
  shortest_path set_iter start target fuel' g = Ok r.
Proof.
  unfold shortest_path. intros Hrun Hle.
  destruct (bfs_loop set_iter fuel g _ _) as [[g1 dist1]| |] eqn:Hloop; try discriminate.
  by rewrite (bfs_loop_more_fuel _ _ fuel' _ _ _ _ Hloop Hle).
Qed.

(** Whenever [shortest_path] returns, with whatever fuel, it returns what
    the traversal has recorded for the target. *)
Lemma shortest_path_returns set_iter start target fuel (g : Graph.t) path g' :
  (∀ s, set_iter s ≡ₚ elements s) →
  shortest_path set_iter start target fuel g = Ok (path, g') →
  ∃ dist : gmap string (list pyval),
    path = route dist target
    ∧ (∀ v, is_Some (dist !! v) → walk (neighbors g) start (route dist v) v)
    ∧ (∀ v p, walk (neighbors g) start p v →
         is_Some (dist !! v) ∧ length (route dist v) ≤ length p)
    ∧ (∀ u, neighbors g' u = neighbors g u)
    ∧ (∀ k, is_Some (g' !! k) ↔ is_Some (g !! k) ∨ is_Some (dist !! k)).
Proof.
  intros Hperm Hrun.
  destruct (shortest_path_run set_iter start target (fuel + S (size (targets g))) g Hperm)
    as (g2 & dist & Hrun2 & _ & Hsound & Hcomplete & Hnb & Hdom); [lia |].
  rewrite (shortest_path_more_fuel _ _ _ fuel _ _ _ Hrun) in Hrun2 by lia.
  injection Hrun2 as -> ->. by exists dist.
Qed.

(** X9. Whenever [shortest_path] returns a non-empty list, with whatever
    fuel and whatever iteration order of the sets, the list visits no
    node twice, starts with the start node, ends with the target, and
    follows recorded edges. *)
Theorem shortest_path_is_simple set_iter start target fuel (g : Graph.t) path g' :
  (∀ s, set_iter s ≡ₚ elements s) →
  shortest_path set_iter start target fuel g = Ok (path, g') →
  path ≠ [] →
  NoDup path
  ∧ head path = Some start ∧ last path = Some target
  ∧ chained (λ u v, v ∈ neighbors g u) path.
Proof.
  intros Hperm Hrun Hne.
  destruct (shortest_path_returns _ _ _ _ _ _ _ Hperm Hrun)
    as (dist & -> & Hsound & Hcomplete & _).
  assert (is_Some (dist !! target)) as Hin.
  { unfold route in Hne. destruct (dist !! target); [eauto | done]. }
  pose proof (Hsound target Hin) as Hwalk.
  destruct (walk_ends _ _ _ _ Hwalk) as [Hhead Hlast].
  split_and!; try done.
  - apply (shortest_walk_NoDup _ _ _ _ Hwalk). intros p' Hp'. by apply Hcomplete.
  - by apply (walk_chained _ start _ target).
Qed.

Lemma shortest_path_is_simple_witness :
  NoDup ["s"; "a"; "t"]
  ∧ head ["s"; "a"; "t"] = Some "s" ∧ last ["s"; "a"; "t"] = Some "t"
  ∧ chained (λ u v, v ∈ neighbors (<["s" := {["a"; "b"]}]> (<["a" := {["t"; "s"]}]> ∅)) u)
      ["s"; "a"; "t"].
Proof.
  apply (shortest_path_is_simple elements "s" "t" 4
           (<["s" := {["a"; "b"]}]> (<["a" := {["t"; "s"]}]> ∅)) ["s"; "a"; "t"]
           (<["t" := ∅]> (<["b" := ∅]> (<["s" := {["a"; "b"]}]> (<["a" := {["t"; "s"]}]> ∅))))).
  - intros s. reflexivity.
  - vm_compute. reflexivity.
  - discriminate.
Defined.

(** X10. The iteration order of the sets decides which shortest path is
    returned, not how long it is, nor what the call does to the graph:
    under two iteration orders [shortest_path] returns lists of the same
    length and leaves the same graph. *)
Theorem shortest_path_length_fixed iter1 iter2 start target fuel1 fuel2
    (g : Graph.t) path1 path2 g1 g2 :
  (∀ s, iter1 s ≡ₚ elements s) →
  (∀ s, iter2 s ≡ₚ elements s) →
  shortest_path iter1 start target fuel1 g = Ok (path1, g1) →
  shortest_path iter2 start target fuel2 g = Ok (path2, g2) →
  length path1 = length path2 ∧ g1 = g2.
Proof.
  intros Hperm1 Hperm2 Hrun1 Hrun2.
  destruct (shortest_path_returns _ _ _ _ _ _ _ Hperm1 Hrun1)
    as (d1 & -> & Hs1 & Hc1 & Hn1 & Hd1).
  destruct (shortest_path_returns _ _ _ _ _ _ _ Hperm2 Hrun2)
    as (d2 & -> & Hs2 & Hc2 & Hn2 & Hd2).
  assert (∀ k, is_Some (d1 !! k) ↔ is_Some (d2 !! k)) as Hsame.
  { intros k. split; intros Hk.
    - by apply (Hc2 k _ (Hs1 k Hk)).
    - by apply (Hc1 k _ (Hs2 k Hk)). }
  split.
  - unfold route.
    destruct (d1 !! target) as [l1|] eqn:E1, (d2 !! target) as [l2|] eqn:E2.
    + pose proof (Hc2 target _ (Hs1 target (mk_is_Some _ _ E1))) as [_ H21].
      pose proof (Hc1 target _ (Hs2 target (mk_is_Some _ _ E2))) as [_ H12].
      unfold route in H21, H12. rewrite E1, E2 in *. lia.
    + destruct (proj1 (Hsame target)) as [? ?]; [eauto | congruence].
    + destruct (proj2 (Hsame target)) as [? ?]; [eauto | congruence].
    + done.
  - apply map_eq. intros k.
    pose proof (Hn1 k) as N1. pose proof (Hn2 k) as N2. unfold neighbors in N1, N2.
    pose proof (Hd1 k) as D1. pose proof (Hd2 k) as D2. rewrite Hsame in D1.
    destruct (g1 !! k) as [s1|] eqn:E1, (g2 !! k) as [s2|] eqn:E2; simpl in *.
    + congruence.
    + exfalso. destruct D2 as [_ D2]. destruct D2 as [? ?]; [| done].
      apply D1. eauto.
    + exfalso. destruct D1 as [_ D1]. destruct D1 as [? ?]; [| done].
      apply D2. eauto.
    + done.
Qed.

Lemma shortest_path_length_fixed_witness :
  length ["s"; "a"; "t"] = length ["s"; "b"; "t"]
  ∧ (<["t" := ∅]> (<["s" := {["a"; "b"]}]> (<["a" := {["t"]}]> (<["b" := {["t"]}]> ∅))) : Graph.t)
    = <["t" := ∅]> (<["s" := {["a"; "b"]}]> (<["a" := {["t"]}]> (<["b" := {["t"]}]> ∅))).
Proof.
  apply (shortest_path_length_fixed elements (λ s, reverse (elements s)) "s" "t" 5 5
           (<["s" := {["a"; "b"]}]> (<["a" := {["t"]}]> (<["b" := {["t"]}]> ∅)))).
  - intros s. reflexivity.
  - intros s. apply reverse_Permutation.
  - vm_compute. reflexivity.
  - vm_compute. reflexivity.
Defined.

(** ** The call, end to end *)

Section EndToEnd.

Variable lower : string → string.
Variable join : string → string → string.
Variable url_leb : string → string → bool.
Variable set_iter : gset string → list string.
Hypothesis set_iter_perm : ∀ s, set_iter s ≡ₚ elements s.
Variable fetch : string → response.
Variables (start target : string) (concurrent : nat) (keywords : list string).

Abbreviation step' := (step lower join url_leb fetch target keywords).
Abbreviation gather' := (gather lower join url_leb fetch target keywords).
Abbreviation seeded' := (seeded lower join fetch start target concurrent keywords).
Abbreviation call := (__call__ lower join url_leb set_iter fetch start target concurrent keywords).

(** [gather] returns a state the pool has reached, in which every task
    has returned. *)
Lemma gather_reaches sched : ∀ st st',
  gather' sched st = Ok st' →
  rtc step' st st' ∧ forallb is_exited (workers st') = true.
Proof.
  induction sched as [|i sched IH]; intros st st'; simpl.
  - destruct (forallb is_exited (workers st)) eqn:Hfin; [| discriminate].
    intros [= <-]. done.
  - destruct (forallb is_exited (workers st)) eqn:Hfin.
    + intros [= <-]. done.
    + intros Hrun.
      destruct (_worker lower join url_leb fetch target keywords i st) as [s|] eqn:Hstep.
      * destruct (IH s st' Hrun) as [Hreach Hdone]. split; [| done].
        apply rtc_l with s; [by exists i | done].
      * by apply IH.
Qed.

(** When the call gets past [gather] with at least one worker, the target
    can be reached along recorded edges, and these are links of the web. *)
Lemma gather_found st0 sched st :
  seeded' = Some st0 → 0 < concurrent → gather' sched st0 = Ok st →
  reach (_graph st) start target
  ∧ ∀ u v, v ∈ neighbors (_graph st) u → links_to join fetch u v.
Proof.
  intros Hseed Hpos Hrun. destruct (gather_reaches sched st0 st Hrun) as [Hreach Hdone].
  assert (permits_inv concurrent st) as (_ & Hlen & _).
  { apply (reachable_inv lower join url_leb fetch target keywords _ st0);
      [by eapply permits_seeded | | done].
    intros i s s'. apply permits_keep. }
  assert (reach_inv start target st) as (_ & _ & _ & Hfound).
  { apply (reachable_inv lower join url_leb fetch target keywords _ st0);
      [by eapply reach_seeded | | done].
    intros i s s'. apply reach_keep. }
  assert (exit_inv st) as Hexit.
  { apply (reachable_inv lower join url_leb fetch target keywords _ st0);
      [by eapply exit_seeded | | done].
    intros i s s'. apply exit_keep. }
  assert (sound_inv join fetch st) as Hsound.
  { apply (reachable_inv lower join url_leb fetch target keywords _ st0);
      [by eapply sound_seeded | | done].
    intros i s s'. apply sound_keep. }
  split; [| done]. apply Hfound, Hexit.
  destruct (workers st) as [|t ts]; [simpl in Hlen; lia |].
  simpl in Hdone. apply andb_true_iff in Hdone as [Ht _].
  destruct t; try discriminate. by left.
Qed.

(** X11. When the start page is HTML and there is at least one worker,
    whatever the call returns, under whatever schedule and with whatever
    fuel, is a path of the web: a non-empty list without repetition that
    starts with the start node, ends with the target, and in which each
    node links to the next. *)
Theorem returned_path_is_real (source : list Tag) (sched : list nat) (fuel : nat)
    (path : list string) :
  fetch start = Html source →
  0 < concurrent →
  call sched fuel = Ok path →
  path ≠ [] ∧ NoDup path
  ∧ head path = Some start ∧ last path = Some target
  ∧ chained (links_to join fetch) path.
Proof.
  intros Hfetch Hpos. unfold __call__, _first.
  destruct seeded' as [st0|] eqn:Hseed.
  2:{ unfold seeded in Hseed. by rewrite Hfetch in Hseed. }
  destruct (gather' sched st0) as [st| |] eqn:Hrun; try discriminate. simpl.
  destruct (shortest_path set_iter start target fuel (_graph st)) as [[p g']| |] eqn:Hsp;
    try discriminate. simpl. intros [= <-].
  destruct (gather_found st0 sched st Hseed Hpos Hrun) as [[p0 Hp0] Hlinks].
  destruct (shortest_path_returns _ _ _ _ _ _ _ set_iter_perm Hsp)
    as (dist & -> & Hsound & Hcomplete & _).
  destruct (Hcomplete target p0 Hp0) as [Hin _].
  pose proof (Hsound target Hin) as Hwalk.
  destruct (walk_ends _ _ _ _ Hwalk) as [Hhead Hlast].
  split_and!; try done.
  - intros Hnil. by rewrite Hnil in Hhead.
  - apply (shortest_walk_NoDup _ _ _ _ Hwalk). intros p' Hp'. by apply Hcomplete.
  - apply (chained_impl (λ u v, v ∈ neighbors (_graph st) u)); [done |].
    by apply (walk_chained _ start _ target).
Qed.

End EndToEnd.

Lemma returned_path_is_real_witness :
  ["/wiki/S"; "/wiki/A"; "/wiki/T"] ≠ [] ∧ NoDup ["/wiki/S"; "/wiki/A"; "/wiki/T"]
  ∧ head ["/wiki/S"; "/wiki/A"; "/wiki/T"] = Some "/wiki/S"
  ∧ last ["/wiki/S"; "/wiki/A"; "/wiki/T"] = Some "/wiki/T"
  ∧ chained (links_to (λ _ h, h) small_web) ["/wiki/S"; "/wiki/A"; "/wiki/T"].
Proof.
  apply (returned_path_is_real Str.lower (λ _ h, h) String.leb elements (λ s, reflexivity _)
           small_web "/wiki/S" "/wiki/T" 2 []
           [mkTag "Page A" "/wiki/A"; mkTag "Page B" "/wiki/B"]
           [0; 1; 1; 0; 0; 1; 1] 4).
  - reflexivity.
  - lia.
  - vm_compute. reflexivity.
Defined.

(** ** A direct link from the start page to the target *)

Lemma walk_two_nodes nb s p t :
  walk nb s p t → s ≠ t → length p ≤ 2 → p = [s; t].
Proof.
  intros Hp Hne Hlen.
  apply walk_inv in Hp as [[_ ?] | (p1 & u & -> & Hp1 & _)]; [done |].
  rewrite length_app in Hlen. simpl in Hlen.
  apply walk_inv in Hp1 as [[-> _] | (p2 & u' & -> & Hp2 & _)]; [done |].
  destruct (walk_ends _ _ _ _ Hp2) as [Hhead _].
  rewrite length_app in Hlen. simpl in Hlen. destruct p2; [done | simpl in Hlen; lia].
Qed.

Section DirectLink.

Variable lower : string → string.
Variable join : string → string → string.
Variable url_leb : string → string → bool.
Variable set_iter : gset string → list string.
Hypothesis set_iter_perm : ∀ s, set_iter s ≡ₚ elements s.
Variable fetch : string → response.
Variables (start target : string) (concurrent : nat) (keywords : list string).

Abbreviation gather' := (gather lower join url_leb fetch target keywords).
Abbreviation call := (__call__ lower join url_leb set_iter fetch start target concurrent keywords).

(** With the event set, each worker returns the first time it is
    resumed, and nothing else happens. *)
Lemma gather_after_signal sched : ∀ st,
  _target_found st = true →
  Forall (λ t, t = AtLoop ∨ t = Exited) (workers st) →
  (∀ i, workers st !! i = Some AtLoop → i ∈ sched) →
  ∃ st', gather' sched st = Ok st' ∧ _graph st' = _graph st.
Proof.
  induction sched as [|i sched IH]; intros st Hf Hall Hsched.
  - exists st. split; [| done]. simpl.
    destruct (forallb is_exited (workers st)) eqn:Hfin; [done |].
    exfalso. apply not_true_iff_false in Hfin. apply Hfin, forallb_forall.
    intros t Ht. apply list_elem_of_In, list_elem_of_lookup_1 in Ht as [j Hj].
    rewrite Forall_lookup in Hall. destruct (Hall j t Hj) as [-> | ->]; [| done].
    by apply Hsched, elem_of_nil in Hj.
  - destruct (forallb is_exited (workers st)) eqn:Hfin.
    { exists st. by rewrite gather_finished. }
    rewrite gather_cons by done. unfold _worker.
    destruct (workers st !! i) as [t|] eqn:Hi.
    + rewrite Forall_lookup in Hall. destruct (Hall i t Hi) as [-> | ->].
      * rewrite Hf. simpl.
        destruct (IH (set_task i Exited st)) as (st' & Hrun & Hg); [done | | |].
        -- simpl. apply Forall_insert; [by apply Forall_lookup | by right].
        -- simpl. intros j Hj.
           apply list_lookup_insert_Some in Hj as [(_ & ? & _) | [Hne Hj]]; [done |].
           apply Hsched in Hj. apply elem_of_cons in Hj as [-> | Hj]; done.
        -- by exists st'.
      * simpl. apply IH; [done | by apply Forall_lookup |].
        intros j Hj. pose proof (Hsched j Hj) as [-> | Hin]%elem_of_cons; [congruence | done].
    + simpl. apply IH; [done | done |].
      intros j Hj. pose proof (Hsched j Hj) as [-> | Hin]%elem_of_cons; [congruence | done].
Qed.

(** X12. When the start page holds an article link that resolves to the
    target, and the target is not the start node, the call returns
    [[start; target]]: under every schedule that resumes each worker at
    least once, with fuel for the links of the start page, whatever else
    the start page links to. *)
Theorem direct_link_found (source : list Tag) (link : Tag) (sched : list nat) (fuel : nat) :
  fetch start = Html source →
  link ∈ _get_article_links source →
  join start (href link) = target →
  start ≠ target →
  (∀ i, i < concurrent → i ∈ sched) →
  length (_get_article_links source) < fuel →
  call sched fuel = Ok [start; target].
Proof.
  intros Hfetch Hlink Hjoin Hne Hsched Hfuel. unfold __call__, _first, seeded.
  rewrite Hfetch.
  destruct (process_links_closed lower join target keywords (_get_article_links source) start
              (init concurrent)) as (pre & post & Hsplit & Hpre & Hpost).
  assert (length (pre ++ post) = length (_get_article_links source)) as Hlen.
  { rewrite <- Hsplit. unfold resolve, _prioritize_by_keyword. simpl.
    by rewrite !length_fmap. }
  destruct post as [|hit post].
  { exfalso. rewrite app_nil_r in Hsplit. rewrite Forall_forall in Hpre.
    apply (Hpre ((prioritize_link lower keywords link).1, target)); [| done].
    rewrite <- Hsplit. unfold resolve, _prioritize_by_keyword. simpl.
    apply list_elem_of_fmap. exists (prioritize_link lower keywords link).
    destruct (prioritize_link_spec lower keywords link) as [Hhref _].
    split; [by rewrite Hhref, Hjoin |]. apply list_elem_of_fmap. eauto. }
  destruct Hpost as [Hhit ->].
  destruct (gather_after_signal sched
              (set_workers (replicate concurrent AtLoop)
                 (mkCrawler (_queue (init concurrent) ++ pre)
                    (add_edges (_graph (init concurrent)) start (pre.*2 ++ [target]))
                    true (_semaphore (init concurrent)) (workers (init concurrent)))))
    as (st' & -> & Hg); simpl.
  - done.
  - apply Forall_replicate. by left.
  - intros i Hi. apply Hsched. apply lookup_lt_Some in Hi.
    by rewrite length_replicate in Hi.
  - rewrite Hg. clear Hg st'. change (_graph (init concurrent)) with (∅ : Graph.t).
    set (vs := pre.*2 ++ [target]). set (g := add_edges ∅ start vs).
    change (_graph (set_workers _ _)) with g.
    assert (∀ u, neighbors g u = if decide (u = start) then list_to_set vs else ∅) as Hnb.
    { intros u. unfold g. rewrite neighbors_add_edges. unfold neighbors.
      rewrite !lookup_empty. simpl. case_decide; set_solver. }
    destruct (shortest_path_run_in (list_to_set vs) set_iter start target fuel g
                set_iter_perm) as (g' & dist & -> & _ & Hsound & Hcomplete & _).
    + intros u. rewrite Hnb. case_decide; set_solver.
    + unfold vs. pose proof (size_list_to_set_le (pre.*2 ++ [target])) as Hsz.
      rewrite length_app, length_fmap in Hsz. rewrite length_app in Hlen.
      simpl in *. lia.
    + simpl. f_equal.
      assert (walk (neighbors g) start [start; target] target) as Hw.
      { apply (walk_step _ _ [start] start); [apply walk_start |].
        rewrite Hnb, decide_True by done. apply elem_of_list_to_set, elem_of_app.
        right. by apply list_elem_of_singleton. }
      destruct (Hcomplete target _ Hw) as [Hin Hshort].
      by apply (walk_two_nodes (neighbors g) start _ target); [apply Hsound | |].
Qed.

End DirectLink.

Lemma direct_link_found_witness :
  __call__ Str.lower (λ _ h, h) String.leb elements small_web "/wiki/S" "/wiki/B" 2 []
    [1; 0] 3
  = Ok ["/wiki/S"; "/wiki/B"].
Proof.
  apply (direct_link_found Str.lower (λ _ h, h) String.leb elements (λ s, reflexivity _)
           small_web "/wiki/S" "/wiki/B" 2 []
           [mkTag "Page A" "/wiki/A"; mkTag "Page B" "/wiki/B"]
           (mkTag "Page B" "/wiki/B") [1; 0] 3).
  - reflexivity.
  - vm_compute. set_solver.
  - reflexivity.
  - discriminate.
  - intros i Hi. destruct i as [|[|i]]; [set_solver | set_solver | lia].
  - vm_compute. lia.
Defined.

(** ** A task left in [get] *)

Section Stranded.

Variable lower : string → string.
Variable join : string → string → string.
Variable url_leb : string → string → bool.
Variable fetch : string → response.
Variables (target : string) (keywords : list string).

Abbreviation gather' := (gather lower join url_leb fetch target keywords).

Lemma stranded_set i t' st :
  stranded st → workers st !! i = Some AtLoop → t' = InGet ∨ t' = Exited →
  stranded (set_task i t' st).
Proof.
  intros (Hq & Hin & Hall) Hi Ht'. split_and!; simpl; [done | |].
  - apply list_elem_of_lookup_1 in Hin as [j Hj].
    apply (list_elem_of_lookup_2 _ j). rewrite list_lookup_insert_ne; [done |].
    intros ->. congruence.
  - apply Forall_insert; [done |]. destruct Ht' as [-> | ->]; auto.
Qed.

Lemma stranded_step i st :
  stranded st → stranded (default st (_worker lower join url_leb fetch target keywords i st)).
Proof.
  intros Hst. pose proof Hst as (Hq & Hin & Hall). unfold _worker.
  destruct (workers st !! i) as [t|] eqn:Hi; [| done].
  rewrite Forall_lookup in Hall.
  destruct (Hall i t Hi) as [-> | [-> | ->]].
  - destruct (_target_found st).
    + simpl. apply stranded_set; auto.
    + rewrite Hq. simpl. apply stranded_set; auto.
  - rewrite Hq. simpl. done.
  - simpl. done.
Qed.

(** X13. Once a task is suspended in [queue.get()] on an empty queue
    while no other task is fetching, the crawl cannot finish, whether or
    not the target has been found: the tasks at the loop test return or
    join the wait, nothing is ever put on the queue, and [gather] returns
    under no schedule. *)
Theorem stranded_never_returns (st : crawler) (sched : list nat) :
  stranded st → gather' sched st = OutOfFuel.
Proof.
  revert st. induction sched as [|i sched IH]; intros st Hst.
  - destruct Hst as (_ & Hin & _). simpl.
    destruct (forallb is_exited (workers st)) eqn:Hfin; [| done].
    rewrite forallb_forall in Hfin. by apply list_elem_of_In, Hfin in Hin.
  - rewrite gather_cons.
    + apply IH. by apply stranded_step.
    + destruct Hst as (_ & Hin & _). apply not_true_iff_false. intros Hfin.
      rewrite forallb_forall in Hfin. by apply list_elem_of_In, Hfin in Hin.
Qed.

End Stranded.

(** The witness is a state that arises in a crawl: two workers on
    [small_web], the second one resumed until it waits in [get] before
    the first one finds the target. The event is set, and the call does
    not return. *)
Lemma stranded_never_returns_witness :
  __call__ Str.lower (λ _ h, h) String.leb elements small_web "/wiki/S" "/wiki/T" 2 []
    ([0; 1; 1; 1; 0; 0] ++ [1; 0; 1; 0]) 5 = OutOfFuel.
Proof.
  unfold __call__, _first.
  assert (seeded Str.lower (λ _ h, h) small_web "/wiki/S" "/wiki/T" 2 []
          = Some (mkCrawler [(0, "/wiki/A"); (0, "/wiki/B")]
                    {["/wiki/S" := {["/wiki/A"; "/wiki/B"]}]} false 2 [AtLoop; AtLoop]))
    as -> by (vm_compute; reflexivity).
  assert (∀ s,
    gather Str.lower (λ _ h, h) String.leb small_web "/wiki/T" [] ([0; 1; 1; 1; 0; 0] ++ s)
      (mkCrawler [(0, "/wiki/A"); (0, "/wiki/B")]
         {["/wiki/S" := {["/wiki/A"; "/wiki/B"]}]} false 2 [AtLoop; AtLoop])
    = gather Str.lower (λ _ h, h) String.leb small_web "/wiki/T" [] s
        (mkCrawler [] (<["/wiki/A" := {["/wiki/T"]}]> {["/wiki/S" := {["/wiki/A"; "/wiki/B"]}]})
           true 2 [Exited; InGet])) as ->.
  { intros s. simpl app.
    repeat (rewrite gather_cons by reflexivity;
            match goal with
            | |- context [default ?st (_worker ?j ?l ?f ?t ?k ?i ?st)] =>
                let r := eval vm_compute in (default st (_worker j l f t k i st)) in
                change (default st (_worker j l f t k i st)) with r
            end).
    reflexivity. }
  rewrite (stranded_never_returns Str.lower (λ _ h, h) String.leb small_web "/wiki/T" []);
    [done |].
  split_and!; [done | set_solver |].
  apply Forall_cons. split; [by right; right |].
  apply Forall_cons. split; [by right; left | constructor].
Defined.

(** ** The prioritizer ignores case *)




(** ** Processing a page twice *)

Lemma add_edges_twice g current vs :
  add_edges (add_edges g current vs) current vs = add_edges g current vs.
Proof.
  apply map_eq. intros u. destruct (decide (u = current)) as [->|Hne].
  - rewrite !lookup_add_edges_eq. destruct vs as [|v vs]; [done |].
    rewrite neighbors_add_edges, decide_True by done. f_equal. set_solver.
  - by rewrite !lookup_add_edges_ne.
Qed.

Section Reprocess.

Variable lower : string → string.
Variable join : string → string → string.
Variables (target : string) (keywords : list string).

Abbreviation process := (_process_links lower join target keywords).

(** The loop of [_process_links], by the pairs up to the target. *)
Lemma process_loop_fields pairs current : ∀ st,
  process_loop join target pairs current st =
  let '(pre, hit) := until_target target (resolve join current pairs) in
  mkCrawler (_queue st ++ pre)
    (add_edges (_graph st) current (pre.*2 ++ if hit then [target] else []))
    (_target_found st || hit) (_semaphore st) (workers st).
Proof.
  induction pairs as [|[priority url] pairs IH]; intros st; simpl.
  - destruct st; simpl. by rewrite app_nil_r, orb_false_r.
  - case_decide as Hurl.
    + destruct st; simpl. by rewrite app_nil_r, orb_true_r, Hurl.
    + rewrite IH. unfold resolve.
      destruct (until_target target _) as [pre hit]. simpl.
      unfold pq_put. by rewrite <- app_assoc.
Qed.

(** X15. Processing the links of a page a second time, as happens when a
    page is fetched again, changes neither the graph nor the event: the
    edges are already there. It does put the same entries on the queue
    once more. *)
Theorem process_links_again (links : list Tag) (current : string) (st : crawler) :
  _graph (process links current (process links current st))
  = _graph (process links current st)
  ∧ _target_found (process links current (process links current st))
    = _target_found (process links current st)
  ∧ ∃ again,
      _queue (process links current st) = _queue st ++ again
      ∧ _queue (process links current (process links current st))
        = _queue st ++ again ++ again.
Proof.
  unfold _process_links. rewrite !process_loop_fields.
  destruct (until_target target _) as [pre hit]. simpl. split_and!.
  - apply add_edges_twice.
  - by destruct (_target_found st), hit.
  - exists pre. by rewrite <- app_assoc.
Qed.

End Reprocess.

(** ** A crawl on [small_web] *)

Lemma small_crawl_reach :
  seeded Str.lower (λ _ h, h) small_web "/wiki/S" "/wiki/T" 2 [] = Some small_crawl_seeded
  ∧ rtc (step Str.lower (λ _ h, h) String.leb small_web "/wiki/T" [])
      small_crawl_seeded small_crawl_fetching.
Proof.
  split; [vm_compute; reflexivity |].
  apply rtc_once. exists 0. vm_compute. reflexivity.
Qed.

Lemma fetches_bounded_witness :
  fetching (workers small_crawl_fetching) ≤ 2
  ∧ _semaphore small_crawl_fetching + fetching (workers small_crawl_fetching) = 2
  ∧ ∀ i current, workers small_crawl_fetching !! i ≠ Some (InAcquire current).
Proof.
  apply (fetches_bounded Str.lower (λ _ h, h) String.leb small_web "/wiki/S" "/wiki/T" 2 []
           small_crawl_seeded small_crawl_fetching); apply small_crawl_reach.
Defined.

Lemma target_never_fetched_witness :
  (∀ e, e ∈ _queue small_crawl_fetching → e.2 ≠ "/wiki/T")
  ∧ (∀ i, workers small_crawl_fetching !! i ≠ Some (InFetch "/wiki/T")
          ∧ workers small_crawl_fetching !! i ≠ Some (InAcquire "/wiki/T")).
Proof.
  apply (target_never_fetched Str.lower (λ _ h, h) String.leb small_web "/wiki/S" "/wiki/T" 2 []
           small_crawl_seeded small_crawl_fetching); apply small_crawl_reach.
Defined.

Lemma graph_only_grows_witness :
  (∀ u, neighbors (_graph small_crawl_seeded) u ⊆ neighbors (_graph small_crawl_fetching) u)
  ∧ (∀ u, is_Some (_graph small_crawl_seeded !! u) →
          is_Some (_graph small_crawl_fetching !! u))
  ∧ (_target_found small_crawl_seeded = true → _target_found small_crawl_fetching = true).
Proof.
  apply (graph_only_grows Str.lower (λ _ h, h) String.leb small_web "/wiki/T" []
           small_crawl_seeded small_crawl_fetching); apply small_crawl_reach.
Defined.

Lemma edges_are_links_witness :
  links_to (λ _ h, h) small_web "/wiki/S" "/wiki/B".
Proof.
  apply (edges_are_links Str.lower (λ _ h, h) String.leb small_web "/wiki/S" "/wiki/T" 2 []
           small_crawl_seeded small_crawl_fetching (proj1 small_crawl_reach)
           (proj2 small_crawl_reach) "/wiki/S" "/wiki/B").
  vm_compute. set_solver.
Defined.

Lemma recorded_is_reachable_witness :
  (∀ k, is_Some (_graph small_crawl_fetching !! k) →
        reach (_graph small_crawl_fetching) "/wiki/S" k)
  ∧ (∀ e, e ∈ _queue small_crawl_fetching →
          reach (_graph small_crawl_fetching) "/wiki/S" e.2)
  ∧ (∀ i c, workers small_crawl_fetching !! i = Some (InFetch c) →
            reach (_graph small_crawl_fetching) "/wiki/S" c)
  ∧ (_target_found small_crawl_fetching = true →
     reach (_graph small_crawl_fetching) "/wiki/S" "/wiki/T")
  ∧ (Exited ∈ workers small_crawl_fetching → _target_found small_crawl_fetching = true).
Proof.
  apply (recorded_is_reachable Str.lower (λ _ h, h) String.leb small_web "/wiki/S" "/wiki/T" 2 []
           small_crawl_seeded small_crawl_fetching); apply small_crawl_reach.
Defined.
